(** * ants: a goroutine pool — shallow embedding of [pool.go]

    The development follows the source file top to bottom: the fixed-width
    integers Go computes with, the [Pool] struct, the constructor, the
    counters, [Release], [ReSize], and then the two internal operations
    [getWorker] and [putWorker], cut at the points where another goroutine
    can interleave (lock acquisition, channel operations, atomic
    instructions). *)

From Stdlib Require Import ZArith List Bool Lia.
Import ListNotations.
Open Scope Z_scope.

Set Implicit Arguments.

(** ** Machine integers *)

(** [int32]: two's complement on 32 bits.  Go wraps silently on overflow and
    on narrowing conversions. *)
Module Int32.
Definition min : Z := -2147483648.
Definition max : Z := 2147483647.
Definition in_range (z : Z) : Prop := min <= z <= max.
Definition wrap (z : Z) : Z :=
  (z + 2147483648) mod 4294967296 - 2147483648.
Definition add (x y : Z) : Z := wrap (x + y).
Definition sub (x y : Z) : Z := wrap (x - y).
End Int32.

(** [int]: 64 bits wide, as on the amd64 and arm64 targets. *)
Module Int.
Definition min : Z := -9223372036854775808.
Definition max : Z := 9223372036854775807.
Definition in_range (z : Z) : Prop := min <= z <= max.
End Int.

(** [math.MaxInt32], the buffer size of [freeSignal]. *)
Definition MaxInt32 : Z := Int32.max.

(** ** Data *)

(** A [*Worker] is a pointer; two workers are the same instance when the
    addresses are equal. *)
Definition Worker := nat.

(** [type f func()]: a task body is opaque, only its identity matters. *)
Inductive f : Type := func (id : nat).

(** The two error values the pool returns (declared next to the pool in the
    package, named as the source names them). *)
Inductive error : Type :=
| PoolSizeInvalidError
| PoolClosedError.

(** The [Pool] struct.  The buffered channel [freeSignal] carries values of
    the empty struct [sig], so its content is the number of buffered units;
    the unbuffered channel [release] is only ever closed, so its content is
    whether it has been closed; [lock] is [true] while some goroutine holds
    the mutex; [workerPool] is the multiset of items currently stored in the
    [sync.Pool]. *)
Record Pool : Type := mkPool {
  capacity   : Z;
  running    : Z;
  freeSignal : Z;
  workers    : list Worker;
  workerPool : list Worker;
  release    : bool;
  lock       : bool;
  closed     : Z
}.

Definition set_capacity (v : Z) (p : Pool) : Pool :=
  mkPool v (running p) (freeSignal p) (workers p) (workerPool p)
         (release p) (lock p) (closed p).
Definition set_running (v : Z) (p : Pool) : Pool :=
  mkPool (capacity p) v (freeSignal p) (workers p) (workerPool p)
         (release p) (lock p) (closed p).
Definition set_freeSignal (v : Z) (p : Pool) : Pool :=
  mkPool (capacity p) (running p) v (workers p) (workerPool p)
         (release p) (lock p) (closed p).
Definition set_workers (v : list Worker) (p : Pool) : Pool :=
  mkPool (capacity p) (running p) (freeSignal p) v (workerPool p)
         (release p) (lock p) (closed p).
Definition set_workerPool (v : list Worker) (p : Pool) : Pool :=
  mkPool (capacity p) (running p) (freeSignal p) (workers p) v
         (release p) (lock p) (closed p).
Definition set_release (v : bool) (p : Pool) : Pool :=
  mkPool (capacity p) (running p) (freeSignal p) (workers p) (workerPool p)
         v (lock p) (closed p).
Definition set_lock (v : bool) (p : Pool) : Pool :=
  mkPool (capacity p) (running p) (freeSignal p) (workers p) (workerPool p)
         (release p) v (closed p).
Definition set_closed (v : Z) (p : Pool) : Pool :=
  mkPool (capacity p) (running p) (freeSignal p) (workers p) (workerPool p)
         (release p) (lock p) v.

(** How a call ends, in a state of type [S]: it returns a value, it panics,
    or it cannot proceed from the present state (a held mutex, an empty or
    full channel, a loop that only another goroutine can end). *)
Inductive outcome (S A : Type) : Type :=
| Returns (a : A) (s : S)
| Panics (s : S)
| Blocks (s : S).
Arguments Returns {S A} a s.
Arguments Panics {S A} s.
Arguments Blocks {S A} s.

(** ** Constructor and counters *)

(** [NewPool(size int)], returning a pool pointer and an error.  [int32(size)] narrows. *)
Definition NewPool (size : Z) : Pool + error :=
  if size <=? 0 then inr PoolSizeInvalidError
  else inl (mkPool (Int32.wrap size) 0 0 [] [] false false 0).

(** [Running], [Free], [Cap]: atomic loads; the subtraction in [Free] is an
    [int32] subtraction, widened to [int] afterwards. *)
Definition Running (p : Pool) : Z := running p.
Definition Free (p : Pool) : Z := Int32.sub (capacity p) (running p).
Definition Cap (p : Pool) : Z := capacity p.

(** [Release]: the mutex is taken, the flag stored, the channel closed.
    Closing a closed channel panics; the unlock that follows is not
    deferred, so the mutex stays held when that happens. *)
Definition Release (p : Pool) : outcome Pool (option error) :=
  if lock p then Blocks p
  else
    let p1 := set_closed 1 (set_lock true p) in
    if release p1 then Panics p1
    else Returns None (set_lock false (set_release true p1)).

(** [ReSize(size int)]: one atomic store of [int32(size)]. *)
Definition ReSize (size : Z) (p : Pool) : Pool :=
  set_capacity (Int32.wrap size) p.

(** ** The allocation cache

    [workerPool] is a [sync.Pool] without a [New] function.  [Put] stores an
    item.  [Get] removes and returns a stored item of the library's choosing,
    or returns nil: when nothing is stored, and also when the library ignores
    what is stored.  Stored items may moreover disappear between calls (the
    collector empties the cache).  The choice [Get] makes is an input of the
    model. *)
Inductive pick : Type :=
| Miss
| Hit (i : nat).

Fixpoint take_out (i : nat) (items : list Worker) : list Worker :=
  match items, i with
  | [], _ => []
  | _ :: r, O => r
  | x :: r, S j => x :: take_out j r
  end.

Definition Get (c : pick) (items : list Worker) : option Worker * list Worker :=
  match c with
  | Miss => (None, items)
  | Hit i =>
      match nth_error items i with
      | Some w => (Some w, take_out i items)
      | None => (None, items)
      end
  end.

Definition Put (w : Worker) (items : list Worker) : list Worker := w :: items.

(** ** putWorker

    Control points of [putWorker(worker)]: before [workerPool.Put], before
    [lock.Lock], before the send on [freeSignal], and the return. *)
Inductive pw : Type :=
| pw_Put
| pw_Lock
| pw_send
| pw_return.

(** One step of [putWorker]; [None] when the goroutine cannot move.  The
    critical section (lock, append, unlock) is one step: nothing else touches
    [workers] while the mutex is held. *)
Definition pw_step (w : Worker) (s : pw) (p : Pool) : option (pw * Pool) :=
  match s with
  | pw_Put => Some (pw_Lock, set_workerPool (Put w (workerPool p)) p)
  | pw_Lock =>
      if lock p then None
      else Some (pw_send, set_workers (workers p ++ [w]) p)
  | pw_send =>
      if freeSignal p <? MaxInt32
      then Some (pw_return, set_freeSignal (freeSignal p + 1) p)
      else None
  | pw_return => None
  end.

Fixpoint pw_run (fuel : nat) (w : Worker) (s : pw) (p : Pool)
  : outcome Pool unit :=
  match s with
  | pw_return => Returns tt p
  | _ =>
      match fuel with
      | O => Blocks p
      | S k =>
          match pw_step w s p with
          | None => Blocks p
          | Some (s', p') => pw_run k w s' p'
          end
      end
  end.

(** [putWorker] run by one goroutine with no other goroutine moving. *)
Definition putWorker (w : Worker) (p : Pool) : outcome Pool unit :=
  pw_run 3 w pw_Put p.

(** ** Workers

    Modelled from the spec: the worker side of the package ([Worker.run],
    [Worker.sendTask]) is not part of the sources at hand.  A Worker owns one
    goroutine, started by [run]: it blocks awaiting a task on its single-slot
    channel, executes the task to completion, calls [putWorker] on itself,
    and starts over.  [sendTask] completes when the goroutine is ready to
    receive; the sender blocks until then. *)
Inductive wk : Type :=
| wk_recv
| wk_exec (t : f)
| wk_put (s : pw).

(** The pool together with the Worker objects allocated so far: the address
    of a Worker is its index in [heap], and the entry is where its goroutine
    stands. *)
Record World : Type := mkWorld {
  pool : Pool;
  heap : list wk
}.

Definition on_pool (g : Pool -> Pool) (W : World) : World :=
  mkWorld (g (pool W)) (heap W).

Fixpoint store {A : Type} (i : nat) (x : A) (l : list A) : list A :=
  match l, i with
  | [], _ => []
  | _ :: r, O => x :: r
  | y :: r, S j => y :: store j x r
  end.

Definition sendTask (w : Worker) (task : f) (W : World) : option World :=
  match nth_error (heap W) w with
  | Some wk_recv => Some (mkWorld (pool W) (store w (wk_exec task) (heap W)))
  | _ => None
  end.

(** ** getWorker *)

(** [workers[len(workers)-1]] and [workers[:len(workers)-1]]. *)
Definition top (ws : list Worker) : option Worker :=
  nth_error ws (pred (length ws)).
Definition below (ws : list Worker) : list Worker :=
  firstn (pred (length ws)) ws.

(** Control points of [getWorker], with the value of the local [w] where it
    is live: the first critical section (line 139), the receive on
    [freeSignal] (154), the critical section of the retry loop (156),
    [workerPool.Get] (170), the atomic add (177), the return (182). *)
Inductive gw : Type :=
| gw_Lock
| gw_recv
| gw_retry
| gw_Get (w : option Worker)
| gw_Add (w : Worker)
| gw_return (w : Worker).

(** One step of [getWorker]; [None] when the goroutine cannot move.  [c] is
    what [workerPool.Get] does if this step calls it. *)
Definition gw_step (c : pick) (s : gw) (W : World) : option (gw * World) :=
  let p := pool W in
  match s with
  | gw_Lock =>
      if lock p then None
      else
        match top (workers p) with
        | None =>
            if running p >=? capacity p
            then Some (gw_recv, W)
            else Some (gw_Get None, W)
        | Some w =>
            Some (gw_Get (Some w), on_pool (set_workers (below (workers p))) W)
        end
  | gw_recv =>
      if 0 <? freeSignal p
      then Some (gw_retry, on_pool (set_freeSignal (freeSignal p - 1)) W)
      else None
  | gw_retry =>
      if lock p then None
      else
        match top (workers p) with
        | None => Some (gw_retry, W)
        | Some w =>
            Some (gw_return w, on_pool (set_workers (below (workers p))) W)
        end
  | gw_Get _ =>
      match Get c (workerPool p) with
      | (None, items) =>
          let w := length (heap W) in
          Some (gw_Add w,
                mkWorld (set_workerPool items p) (heap W ++ [wk_recv]))
      | (Some wp, items) =>
          Some (gw_return wp, on_pool (set_workerPool items) W)
      end
  | gw_Add w =>
      Some (gw_return w, on_pool (set_running (Int32.add (running p) 1)) W)
  | gw_return _ => None
  end.

Fixpoint gw_run (fuel : nat) (c : pick) (s : gw) (W : World)
  : outcome World Worker :=
  match s with
  | gw_return w => Returns w W
  | _ =>
      match fuel with
      | O => Blocks W
      | S k =>
          match gw_step c s W with
          | None => Blocks W
          | Some (s', W') => gw_run k c s' W'
          end
      end
  end.

(** [getWorker] run by one goroutine with no other goroutine moving: three
    steps reach the return on every path that reaches it at all. *)
Definition getWorker (c : pick) (W : World) : outcome World Worker :=
  gw_run 3 c gw_Lock W.

(** ** Push *)

Definition Push (c : pick) (task : f) (W : World)
  : outcome World (option error) :=
  if closed (pool W) =? 1 then Returns (Some PoolClosedError) W
  else
    match getWorker c W with
    | Returns w W1 =>
        match sendTask w task W1 with
        | Some W2 => Returns None W2
        | None => Blocks W1
        end
    | Panics W1 => Panics W1
    | Blocks W1 => Blocks W1
    end.

(** ** Interleavings

    What one goroutine can do to the shared state in one move.  The control
    point of a caller inside [getWorker] is part of the label and is not
    checked against a history: every control point is allowed in every
    state, which includes every real interleaving.  Worker goroutines are
    tracked in [heap].  Loads ([Running], [Free], [Cap], the entry check of
    [Push]) change nothing and have no label. *)
Inductive label : Type :=
| in_getWorker (c : pick) (s : gw)
| in_sendTask (w : Worker) (task : f)
| in_task (w : Worker)
| in_putWorker (w : Worker)
| in_ReSize (size : Z)
| in_Release
| in_collector (i : nat).

Definition step (l : label) (W : World) : option World :=
  match l with
  | in_getWorker c s => option_map snd (gw_step c s W)
  | in_sendTask w task => sendTask w task W
  | in_task w =>
      match nth_error (heap W) w with
      | Some (wk_exec _) =>
          Some (mkWorld (pool W) (store w (wk_put pw_Put) (heap W)))
      | _ => None
      end
  | in_putWorker w =>
      match nth_error (heap W) w with
      | Some (wk_put s) =>
          match pw_step w s (pool W) with
          | Some (pw_return, p') =>
              Some (mkWorld p' (store w wk_recv (heap W)))
          | Some (s', p') =>
              Some (mkWorld p' (store w (wk_put s') (heap W)))
          | None => None
          end
      | _ => None
      end
  | in_ReSize size => Some (on_pool (ReSize size) W)
  | in_Release =>
      match Release (pool W) with
      | Returns _ p' => Some (mkWorld p' (heap W))
      | Panics p' => Some (mkWorld p' (heap W))
      | Blocks _ => None
      end
  | in_collector i =>
      Some (on_pool (set_workerPool (take_out i (workerPool (pool W)))) W)
  end.

Fixpoint run (tr : list label) (W : World) : option World :=
  match tr with
  | [] => Some W
  | l :: tr' =>
      match step l W with
      | Some W' => run tr' W'
      | None => None
      end
  end.

(** ** Whole calls, one after the other

    A client that calls the pool from one goroutine and lets each call
    finish: [Push], [ReSize], [Release]; the task of a worker returning,
    upon which the worker puts itself back; the collector emptying the
    allocation cache. *)
Inductive call : Type :=
| call_Push (c : pick) (task : f)
| call_ReSize (size : Z)
| call_Release
| task_returns (w : Worker)
| collection.

Definition do_call (k : call) (W : World) : option World :=
  match k with
  | call_Push c task =>
      match Push c task W with
      | Returns _ W' => Some W'
      | _ => None
      end
  | call_ReSize size => Some (on_pool (ReSize size) W)
  | call_Release =>
      match Release (pool W) with
      | Returns _ p' => Some (mkWorld p' (heap W))
      | _ => None
      end
  | task_returns w =>
      match nth_error (heap W) w with
      | Some (wk_exec _) =>
          match putWorker w (pool W) with
          | Returns _ p' => Some (mkWorld p' (store w wk_recv (heap W)))
          | _ => None
          end
      | _ => None
      end
  | collection => Some (on_pool (set_workerPool []) W)
  end.

Fixpoint do_calls (ks : list call) (W : World) : option World :=
  match ks with
  | [] => Some W
  | k :: ks' =>
      match do_call k W with
      | Some W' => do_calls ks' W'
      | None => None
      end
  end.

(** A pool as [NewPool] returns it, with no Worker allocated yet. *)
Definition fresh (size : Z) : option World :=
  match NewPool size with
  | inl p => Some (mkWorld p [])
  | inr _ => None
  end.

(** ** The cleanup goroutine

    [scanAndClean] creates a ticker and starts a goroutine whose first
    statement stops that ticker and whose loop ranges over the ticker's
    channel.  The ticker follows the [time] package as it behaves for a
    program that does not declare Go 1.23 or later in a [go.mod], which is
    the case of this package: its channel buffers one tick; while the
    ticker is running the runtime delivers a tick whenever a period has
    elapsed (a tick that finds the buffer full is dropped); [Stop] prevents
    further ticks, leaves the channel open and does not drain it.  (With the
    timers of Go 1.23 a stopped ticker hands out no tick at all: the moves
    below then include every move of the code, and more.)  Times are in
    nanoseconds.  The other goroutines of the program are the environment:
    they may replace the pool by any pool at any moment. *)
Module Sweeper.

Definition Second : Z := 1000000000.

Record Ticker : Type := mkTicker {
  period  : Z;
  due     : Z;
  ticking : bool;
  C       : bool
}.

(** Control points of the goroutine: [ticker.Stop()] (line 80), the
    receive of [for range ticker.C] (81), the loop body (82-88). *)
Inductive pc : Type :=
| at_Stop
| at_range
| at_body.

(** [rounds] counts the loop iterations entered; [stopped] lists the
    Workers on which the body has called [stop]. *)
Record State : Type := mkState {
  now     : Z;
  shared  : Pool;
  ticker  : Ticker;
  pos     : pc;
  rounds  : nat;
  stopped : list Worker
}.

(** [scanAndClean], called at time [t] on pool [p], up to the [go]
    statement.  [interval] is [DEFAULT_CLEAN_INTERVAL_TIME], a constant
    declared outside this file.  [time.NewTicker] panics on a
    non-positive duration: no goroutine is started then. *)
Definition scanAndClean (interval : Z) (t : Z) (p : Pool) : option State :=
  let d := interval * Second in
  if d <=? 0 then None
  else Some (mkState t p (mkTicker d (t + d) true false) at_Stop 0 []).

Inductive label : Type :=
| l_Stop
| l_receive
| l_body
| l_tick
| l_elapse (d : Z)
| l_others (p : Pool).

Definition step (l : label) (s : State) : option State :=
  let k := ticker s in
  match l with
  | l_Stop =>
      match pos s with
      | at_Stop =>
          Some (mkState (now s) (shared s)
                        (mkTicker (period k) (due k) false (C k))
                        at_range (rounds s) (stopped s))
      | _ => None
      end
  | l_receive =>
      match pos s with
      | at_range =>
          if C k
          then Some (mkState (now s) (shared s)
                             (mkTicker (period k) (due k) (ticking k) false)
                             at_body (S (rounds s)) (stopped s))
          else None
      | _ => None
      end
  | l_body =>
      match pos s with
      | at_body =>
          if closed (shared s) =? 1
          then
            if lock (shared s) then None
            else Some (mkState (now s) (shared s) k at_range (rounds s)
                               (stopped s ++ workers (shared s)))
          else Some (mkState (now s) (shared s) k at_range (rounds s)
                             (stopped s))
      | _ => None
      end
  | l_tick =>
      if ticking k && (due k <=? now s)
      then Some (mkState (now s) (shared s)
                         (mkTicker (period k) (due k + period k) true true)
                         (pos s) (rounds s) (stopped s))
      else None
  | l_elapse d =>
      if 0 <=? d
      then Some (mkState (now s + d) (shared s) k (pos s) (rounds s)
                         (stopped s))
      else None
  | l_others p =>
      Some (mkState (now s) p k (pos s) (rounds s) (stopped s))
  end.

Fixpoint run (tr : list label) (s : State) : option State :=
  match tr with
  | [] => Some s
  | l :: tr' =>
      match step l s with
      | Some s' => run tr' s'
      | None => None
      end
  end.

(** The time that passes before the goroutine executes [ticker.Stop()]. *)
Fixpoint latency (tr : list label) : Z :=
  match tr with
  | [] => 0
  | l_Stop :: _ => 0
  | l_elapse d :: tr' => Z.max 0 d + latency tr'
  | _ :: tr' => latency tr'
  end.

End Sweeper.


(** ** getWorker past the first critical section

    What [getWorker] does once it has left the first critical section
    without deciding to wait (lines 170-180): the result is what
    [workerPool.Get] yields, or else a Worker minted on the spot. *)
Definition fetch (c : pick) (W : World) : outcome World Worker :=
  match Get c (workerPool (pool W)) with
  | (Some wp, items) => Returns wp (on_pool (set_workerPool items) W)
  | (None, items) =>
      Returns (length (heap W))
        (mkWorld (set_running (Int32.add (running (pool W)) 1)
                    (set_workerPool items (pool W)))
                 (heap W ++ [wk_recv]))
  end.

(** The same outcome in a state changed by [g]. *)
Definition map_outcome {S A : Type} (g : S -> S) (o : outcome S A)
  : outcome S A :=
  match o with
  | Returns a s => Returns a (g s)
  | Panics s => Panics (g s)
  | Blocks s => Blocks (g s)
  end.

(** The world after [n] tasks have been submitted, each with a cache miss,
    to a new pool of capacity [math.MaxInt32], no task having returned:
    [n] Workers, all busy with the task [t]. *)
Definition saturated (t : f) (n : nat) : World :=
  mkWorld (mkPool MaxInt32 (Z.of_nat n) 0 [] [] false false 0)
          (repeat (wk_exec t) n).

(** The goroutine of [scanAndClean] has not entered its loop body and
    cannot: the channel of its ticker is empty and either the ticker has
    been stopped, or the goroutine has not moved yet and the first tick is
    still more than [budget] nanoseconds away. *)
Definition quiet (s : Sweeper.State) (budget : Z) : Prop :=
  Sweeper.rounds s = 0%nat /\
  Sweeper.stopped s = [] /\
  Sweeper.C (Sweeper.ticker s) = false /\
  ((Sweeper.pos s = Sweeper.at_Stop /\
    Sweeper.now s + budget < Sweeper.due (Sweeper.ticker s)) \/
   (Sweeper.pos s = Sweeper.at_range /\
    Sweeper.ticking (Sweeper.ticker s) = false)).

(** The capacity a trace leaves, starting from [c0]: what the last
    [ReSize] of the trace stored, if there is one. *)
Fixpoint capacity_after (tr : list label) (c0 : Z) : Z :=
  match tr with
  | [] => c0
  | in_ReSize size :: tr' => capacity_after tr' (Int32.wrap size)
  | _ :: tr' => capacity_after tr' c0
  end.

(** The goroutine of [scanAndClean] can enter its loop body once at most:
    no round has begun before [ticker.Stop()]; afterwards the ticker is
    stopped, a tick still waiting in the channel means no round has begun,
    and the only round there can be is the first. *)
Definition once (s : Sweeper.State) : Prop :=
  (Sweeper.rounds s <= 1)%nat /\
  (Sweeper.rounds s = 0%nat -> Sweeper.stopped s = []) /\
  match Sweeper.pos s with
  | Sweeper.at_Stop => Sweeper.rounds s = 0%nat
  | Sweeper.at_range =>
      Sweeper.ticking (Sweeper.ticker s) = false /\
      (Sweeper.C (Sweeper.ticker s) = true -> Sweeper.rounds s = 0%nat)
  | Sweeper.at_body =>
      Sweeper.ticking (Sweeper.ticker s) = false /\
      Sweeper.C (Sweeper.ticker s) = false /\
      Sweeper.rounds s = 1%nat /\ Sweeper.stopped s = []
  end.

(** ** Interleavings, with every caller tracked

    The client goroutines that are inside a call, each at its own control
    point.  [Release] is cut at its four statements (lines 120-123): the
    store to [closed] and the closing of the channel are two moves, and a
    goroutine that reads [closed] without the mutex can come in between. *)
Inductive rl : Type :=
| rl_Lock
| rl_store
| rl_close
| rl_Unlock.

(** A client goroutine: inside the [getWorker] of [Push(task)] (at
    [gw_return w] it is about to execute [w.sendTask(task)]), inside
    [Release], or out of the pool (returned, or unwinding from a panic). *)
Inductive client : Type :=
| pushing (task : f) (s : gw)
| releasing (s : rl)
| gone.

Record System : Type := mkSystem {
  world   : World;
  clients : list client
}.

(** One step of a client; [None] when it cannot move. *)
Definition client_step (c : pick) (k : client) (W : World)
  : option (client * World) :=
  match k with
  | pushing task (gw_return w) =>
      match sendTask w task W with
      | Some W' => Some (gone, W')
      | None => None
      end
  | pushing task s =>
      match gw_step c s W with
      | Some (s', W') => Some (pushing task s', W')
      | None => None
      end
  | releasing rl_Lock =>
      if lock (pool W) then None
      else Some (releasing rl_store, on_pool (set_lock true) W)
  | releasing rl_store =>
      Some (releasing rl_close, on_pool (set_closed 1) W)
  | releasing rl_close =>
      if release (pool W) then Some (gone, W)
      else Some (releasing rl_Unlock, on_pool (set_release true) W)
  | releasing rl_Unlock => Some (gone, on_pool (set_lock false) W)
  | gone => None
  end.

(** The moves of the whole program: a goroutine enters [Push] (the load of
    [closed] decides at once whether it goes on into [getWorker]) or
    [Release]; [ReSize]; client [i] takes its next step; the goroutine of
    Worker [w] takes its next step; the collector drops a cached item. *)
Inductive move : Type :=
| m_Push (task : f)
| m_Release
| m_ReSize (size : Z)
| m_client (i : nat) (c : pick)
| m_worker (w : Worker)
| m_collect (i : nat).

Definition sys_step (m : move) (S : System) : option System :=
  let W := world S in
  match m with
  | m_Push task =>
      if closed (pool W) =? 1
      then Some (mkSystem W (clients S ++ [gone]))
      else Some (mkSystem W (clients S ++ [pushing task gw_Lock]))
  | m_Release => Some (mkSystem W (clients S ++ [releasing rl_Lock]))
  | m_ReSize size => Some (mkSystem (on_pool (ReSize size) W) (clients S))
  | m_client i c =>
      match nth_error (clients S) i with
      | Some k =>
          match client_step c k W with
          | Some (k', W') => Some (mkSystem W' (store i k' (clients S)))
          | None => None
          end
      | None => None
      end
  | m_worker w =>
      match step (in_task w) W with
      | Some W' => Some (mkSystem W' (clients S))
      | None =>
          match step (in_putWorker w) W with
          | Some W' => Some (mkSystem W' (clients S))
          | None => None
          end
      end
  | m_collect i => option_map (fun W' => mkSystem W' (clients S))
                              (step (in_collector i) W)
  end.

Fixpoint sys_run (tr : list move) (S : System) : option System :=
  match tr with
  | [] => Some S
  | m :: tr' =>
      match sys_step m S with
      | Some S' => sys_run tr' S'
      | None => None
      end
  end.

(** The callers that have constructed and started a Worker (lines 172-176)
    and have not yet executed the atomic add of line 177. *)
Fixpoint pending (ks : list client) : Z :=
  match ks with
  | [] => 0
  | pushing _ (gw_Add _) :: ks' => 1 + pending ks'
  | _ :: ks' => pending ks'
  end.

(** The Workers created so far whose creation has been counted. *)
Definition counted (S : System) : Z :=
  Z.of_nat (length (heap (world S))) - pending (clients S).

(** [closed] is 0 or 1, and as long as it is 0 the [release] channel is
    open and no caller of [Release] is past the store of line 121. *)
Definition store_first (S : System) : Prop :=
  (closed (pool (world S)) = 0 \/ closed (pool (world S)) = 1) /\
  (closed (pool (world S)) = 0 ->
   release (pool (world S)) = false /\
   Forall (fun k => k <> releasing rl_close /\ k <> releasing rl_Unlock)
          (clients S)).

(** * Properties *)

(** ** Integers *)

Lemma wrap_id (z : Z) : Int32.in_range z -> Int32.wrap z = z.
Proof.
  unfold Int32.in_range, Int32.wrap, Int32.min, Int32.max. intros H.
  rewrite Z.mod_small by lia. lia.
Qed.

Lemma wrap_range (z : Z) : Int32.in_range (Int32.wrap z).
Proof.
  unfold Int32.in_range, Int32.wrap, Int32.min, Int32.max.
  pose proof (Z.mod_pos_bound (z + 2147483648) (4294967296) ltac:(lia)). lia.
Qed.

Lemma wrap_wrap_succ (z : Z) :
  Int32.add (Int32.wrap z) 1 = Int32.wrap (1 + z).
Proof.
  unfold Int32.add, Int32.wrap.
  replace ((z + 2147483648) mod 4294967296 - 2147483648 + 1 + 2147483648)
    with ((z + 2147483648) mod 4294967296 + 1) by lia.
  replace (1 + z + 2147483648) with ((z + 2147483648) + 1) by lia.
  rewrite <- (Zplus_mod_idemp_l (z + 2147483648) 1). reflexivity.
Qed.

(** ** The constructor *)

Lemma NewPool_error (size : Z) :
  NewPool size = inr PoolSizeInvalidError <-> size <= 0.
Proof.
  unfold NewPool. destruct (Z.leb_spec size 0); split; intros H0;
    try reflexivity; try lia; discriminate H0.
Qed.

Lemma NewPool_ok (size : Z) :
  0 < size ->
  NewPool size = inl (mkPool (Int32.wrap size) 0 0 [] [] false false 0).
Proof.
  intros H. unfold NewPool. destruct (Z.leb_spec size 0); [lia | reflexivity].
Qed.

(** C5, as the code has it: construction fails with the invalid-size error
    exactly when [size <= 0]; for [size > 0] it returns a pool with an empty
    idle stack, an empty allocation cache, [running = 0], [closed = 0], no
    buffered signal, and a capacity that is [size] narrowed to 32 bits, which
    is [size] itself as long as [size <= math.MaxInt32]. *)
Theorem NewPool_spec (size : Z) :
  (NewPool size = inr PoolSizeInvalidError <-> size <= 0) /\
  (0 < size ->
     exists p, NewPool size = inl p /\
       Cap p = Int32.wrap size /\
       workers p = [] /\ workerPool p = [] /\ freeSignal p = 0 /\
       Running p = 0 /\ closed p = 0 /\
       release p = false /\ lock p = false) /\
  (0 < size <= MaxInt32 ->
     exists p, NewPool size = inl p /\ Cap p = size).
Proof.
  split; [apply NewPool_error | split]; intros H.
  - eexists. split; [apply NewPool_ok; exact H | cbn; repeat split].
  - eexists. split; [apply NewPool_ok; lia | cbn].
    apply wrap_id. unfold MaxInt32, Int32.in_range, Int32.min in *. lia.
Qed.

(** C5 as stated fails: [1 << 32] is a positive [int], and the pool built
    for it has capacity 0. *)
Lemma NewPool_narrows :
  Int.in_range 4294967296 /\ 0 < 4294967296 /\
  exists p, NewPool 4294967296 = inl p /\ Cap p = 0 /\ Cap p <> 4294967296.
Proof.
  split; [unfold Int.in_range, Int.min, Int.max; lia | split; [lia |]].
  eexists. split; [reflexivity | split; [reflexivity | cbn; lia]].
Qed.

(** ** The counters *)

(** C8, as the code has it: [Free] is the 32-bit difference of the two
    counters, with no clamping.  It is [Cap() - Running()] whenever that
    difference fits in an [int32], and then it is negative exactly when
    the capacity is below the running count.  It may be negative after a
    downward resize: after a resize to a capacity below the running count
    it is negative whenever the difference fits in an [int32], as it does
    after two submissions to a pool of capacity 2 and [ReSize(1)], where
    [Free] returns -1. *)
Theorem Free_spec (p : Pool) (size : Z) :
  Free p = Int32.wrap (Cap p - Running p) /\
  (Int32.in_range (Cap p - Running p) ->
   Free p = Cap p - Running p /\ (Free p < 0 <-> Cap p < Running p)) /\
  (Int32.in_range size -> Int32.in_range (size - Running p) ->
   size < Running p ->
   Free (ReSize size p) = size - Running p /\ Free (ReSize size p) < 0) /\
  (exists W0 W,
     fresh 2 = Some W0 /\
     do_calls [call_Push Miss (func 0); call_Push Miss (func 1);
               call_ReSize 1] W0 = Some W /\
     Cap (pool W) = 1 /\ Running (pool W) = 2 /\ Free (pool W) = -1).
Proof.
  split; [reflexivity | split; [| split]].
  - intros H. unfold Free, Int32.sub, Cap, Running in *.
    rewrite (wrap_id H). split; [reflexivity | lia].
  - intros Hs Hd Hlt. unfold Free, Int32.sub, ReSize, Running in *. cbn.
    rewrite (wrap_id Hs), (wrap_id Hd). lia.
  - do 2 eexists. split; [reflexivity |].
    split; [vm_compute; reflexivity |]. repeat split.
Qed.

(** C8 as stated fails: after one task has been submitted to a pool of
    capacity 1 and the pool has been resized to [math.MinInt32], [Free]
    returns [math.MaxInt32], not [Cap() - Running()]. *)
Lemma Free_wraps :
  exists W W',
    fresh 1 = Some W /\
    do_calls [call_Push Miss (func 0); call_ReSize (-2147483648)] W = Some W' /\
    Cap (pool W') = -2147483648 /\ Running (pool W') = 1 /\
    Free (pool W') = 2147483647 /\
    Cap (pool W') - Running (pool W') = -2147483649.
Proof.
  do 2 eexists. split; [reflexivity |].
  split; [vm_compute; reflexivity |]. vm_compute. repeat split.
Qed.

(** ** ReSize *)

(** C9, as the code has it: [ReSize] accepts every [int], stores it narrowed
    to 32 bits as the capacity (the value itself when it fits in an
    [int32], zero and negative values included) and changes nothing else:
    not the other fields of the pool, and no Worker goroutine. *)
Theorem ReSize_spec (size : Z) (W : World) :
  let W' := on_pool (ReSize size) W in
  step (in_ReSize size) W = Some W' /\
  Cap (pool W') = Int32.wrap size /\
  (Int32.in_range size -> Cap (pool W') = size) /\
  Running (pool W') = Running (pool W) /\
  closed (pool W') = closed (pool W) /\
  workers (pool W') = workers (pool W) /\
  workerPool (pool W') = workerPool (pool W) /\
  freeSignal (pool W') = freeSignal (pool W) /\
  release (pool W') = release (pool W) /\
  lock (pool W') = lock (pool W) /\
  heap W' = heap W.
Proof.
  cbn. repeat split. intros H. unfold Cap. cbn. now apply wrap_id.
Qed.

(** C9 as stated fails: resizing to [1 << 32] leaves the pool with capacity
    0, not with the capacity asked for. *)
Lemma ReSize_narrows :
  exists W,
    fresh 8 = Some W /\ Int.in_range 4294967296 /\
    Cap (pool (on_pool (ReSize 4294967296) W)) = 0.
Proof.
  eexists. split; [reflexivity |].
  split; [unfold Int.in_range, Int.min, Int.max; lia | reflexivity].
Qed.
(** ** What a move can change *)

Ltac break_match :=
  repeat match goal with
  | H : context [match ?x with _ => _ end] |- _ =>
      let E := fresh "E" in destruct x eqn:E
  | H : Some _ = Some _ |- _ => inversion H; subst; clear H
  | H : (_, _) = (_, _) |- _ => inversion H; subst; clear H
  | H : None = Some _ |- _ => discriminate H
  | H : context [if ?b then _ else _] |- _ =>
      let E := fresh "E" in destruct b eqn:E
  end.

Lemma gw_step_flags c s W s' W' :
  gw_step c s W = Some (s', W') ->
  closed (pool W') = closed (pool W) /\
  release (pool W') = release (pool W) /\
  lock (pool W') = lock (pool W) /\
  capacity (pool W') = capacity (pool W).
Proof.
  intros H. destruct s; cbn in H; break_match; cbn; auto.
Qed.

Lemma gw_step_running c s W s' W' :
  gw_step c s W = Some (s', W') ->
  running (pool W') =
    match s with
    | gw_Add _ => Int32.add (running (pool W)) 1
    | _ => running (pool W)
    end.
Proof.
  intros H. destruct s; cbn in H; break_match; cbn; auto.
Qed.

Lemma pw_step_flags w s p s' p' :
  pw_step w s p = Some (s', p') ->
  closed p' = closed p /\ release p' = release p /\ lock p' = lock p /\
  capacity p' = capacity p /\ running p' = running p.
Proof.
  intros H. destruct s; cbn in H; break_match; cbn; auto.
Qed.

Lemma Release_flags p :
  match Release p with
  | Returns e p' =>
      e = None /\ lock p = false /\ release p = false /\
      p' = set_release true (set_closed 1 p)
  | Panics p' =>
      lock p = false /\ release p = true /\
      p' = set_closed 1 (set_lock true p)
  | Blocks p' => lock p = true /\ p' = p
  end.
Proof.
  unfold Release. destruct p as [a b c d e r l k]. cbn.
  destruct l; cbn; [auto |]. destruct r; cbn; auto.
Qed.

Lemma step_running l W W' :
  step l W = Some W' ->
  running (pool W') =
    match l with
    | in_getWorker _ (gw_Add _) => Int32.add (running (pool W)) 1
    | _ => running (pool W)
    end.
Proof.
  intros H. destruct l; cbn in H.
  - destruct (gw_step c s W) as [[s' W1] |] eqn:E; [| discriminate H].
    cbn in H. inversion H; subst. now apply gw_step_running in E.
  - unfold sendTask in H. break_match. reflexivity.
  - break_match. reflexivity.
  - destruct (nth_error (heap W) w) as [[| |s] |]; try discriminate H.
    destruct (pw_step w s (pool W)) as [[s' p'] |] eqn:E; [| discriminate H].
    apply pw_step_flags in E. destruct s'; inversion H; subst; cbn; tauto.
  - inversion H; subst. reflexivity.
  - pose proof (Release_flags (pool W)) as R.
    destruct (Release (pool W)); inversion H; subst; cbn;
      destruct R as (? & ? & R); try destruct R as (? & R); subst; reflexivity.
  - inversion H; subst. reflexivity.
Qed.

Lemma step_flags l W W' :
  step l W = Some W' ->
  (closed (pool W) = 1 -> closed (pool W') = 1) /\
  (release (pool W) = true -> release (pool W') = true) /\
  (l <> in_Release ->
   closed (pool W') = closed (pool W) /\
   release (pool W') = release (pool W) /\
   lock (pool W') = lock (pool W)).
Proof.
  intros H. destruct l; cbn in H.
  - destruct (gw_step c s W) as [[s' W1] |] eqn:E; [| discriminate H].
    cbn in H. inversion H; subst. apply gw_step_flags in E.
    destruct E as (-> & -> & -> & _). auto.
  - unfold sendTask in H. break_match. cbn. auto.
  - break_match. cbn. auto.
  - destruct (nth_error (heap W) w) as [[| |s] |]; try discriminate H.
    destruct (pw_step w s (pool W)) as [[s' p'] |] eqn:E; [| discriminate H].
    apply pw_step_flags in E. destruct E as (E1 & E2 & E3 & _).
    destruct s'; inversion H; subst; cbn; rewrite E1, E2, E3; auto.
  - inversion H; subst. cbn. auto.
  - pose proof (Release_flags (pool W)) as R.
    destruct (Release (pool W)); inversion H; subst; cbn.
    + destruct R as (_ & _ & _ & ->). cbn.
      split; [auto | split; [auto | intros N; exfalso; now apply N]].
    + destruct R as (_ & ? & ->). cbn.
      split; [auto | split; [auto | intros N; exfalso; now apply N]].
  - inversion H; subst. cbn. auto.
Qed.

Lemma run_app tr1 tr2 W :
  run (tr1 ++ tr2) W =
  match run tr1 W with Some W1 => run tr2 W1 | None => None end.
Proof.
  revert W. induction tr1 as [| l tr1 IH]; intros W; cbn; [reflexivity |].
  destruct (step l W); [apply IH | reflexivity].
Qed.

Lemma run_closed tr W W' :
  run tr W = Some W' ->
  (closed (pool W) = 1 -> closed (pool W') = 1) /\
  (release (pool W) = true -> release (pool W') = true).
Proof.
  revert W. induction tr as [| l tr IH]; intros W H; cbn in H.
  - inversion H; subst. auto.
  - destruct (step l W) as [W1 |] eqn:E; [| discriminate H].
    apply step_flags in E. apply IH in H. tauto.
Qed.

Lemma run_without_Release tr W W' :
  run tr W = Some W' -> ~ In in_Release tr ->
  closed (pool W') = closed (pool W) /\
  release (pool W') = release (pool W) /\
  lock (pool W') = lock (pool W).
Proof.
  revert W. induction tr as [| l tr IH]; intros W H N; cbn in H.
  - inversion H; subst. auto.
  - destruct (step l W) as [W1 |] eqn:E; [| discriminate H].
    apply step_flags in E. destruct E as (_ & _ & E).
    destruct E as (E1 & E2 & E3).
    { intros ->. apply N. now left. }
    apply IH in H; [| intros I; apply N; now right].
    destruct H as (-> & -> & ->). auto.
Qed.

(** ** getWorker, path by path *)

Lemma getWorker_cases c W :
  getWorker c W =
  let p := pool W in
  if lock p then Blocks W
  else
    match top (workers p) with
    | Some _ => fetch c (on_pool (set_workers (below (workers p))) W)
    | None =>
        if running p >=? capacity p
        then
          if 0 <? freeSignal p
          then Blocks (on_pool (set_freeSignal (freeSignal p - 1)) W)
          else Blocks W
        else fetch c W
    end.
Proof.
  unfold getWorker, fetch. cbn.
  destruct (lock (pool W)) eqn:L; [reflexivity |].
  destruct (top (workers (pool W))) as [w |] eqn:T.
  - cbn. destruct (Get c (workerPool (pool W))) as [[wp |] items]; reflexivity.
  - destruct (running (pool W) >=? capacity (pool W)).
    + cbn. destruct (0 <? freeSignal (pool W)); [| reflexivity].
      cbn. rewrite L, T. reflexivity.
    + cbn. destruct (Get c (workerPool (pool W))) as [[wp |] items]; reflexivity.
Qed.

(** ** Release *)

Lemma Release_closed_channel (q : Pool) (e : option error) (q' : Pool) :
  release q = true -> Release q <> Returns e q'.
Proof.
  intros R H. pose proof (Release_flags q) as F. rewrite H in F.
  destruct F as (_ & _ & F & _). congruence.
Qed.

(** C4: on a pool whose [release] channel is still open, [Release] stores
    1 in [closed], closes the channel and returns nil.  From then on,
    whatever the other goroutines do in between, the next call of [Release]
    panics on the closed channel instead of returning; it leaves the mutex
    held.  No call ever closes the channel a second time. *)
Theorem Release_not_idempotent (p : Pool) :
  lock p = false -> release p = false ->
  exists p1,
    Release p = Returns None p1 /\
    closed p1 = 1 /\ release p1 = true /\ lock p1 = false /\
    (forall h tr W,
        run tr (mkWorld p1 h) = Some W -> ~ In in_Release tr ->
        exists p2,
          Release (pool W) = Panics p2 /\
          closed p2 = 1 /\ release p2 = true /\
          lock (pool W) = false /\ lock p2 = true) /\
    (forall q e q', release q = true -> Release q <> Returns e q').
Proof.
  intros L R. pose proof (Release_flags p) as F.
  destruct (Release p) as [e p1 | p1 | p1].
  - destruct F as (-> & _ & _ & ->). eexists. split; [reflexivity |].
    cbn. repeat split; auto.
    + intros h tr W H N. apply run_without_Release in H; [| exact N].
      cbn in H. destruct H as (Hc & Hr & Hl).
      pose proof (Release_flags (pool W)) as G.
      destruct (Release (pool W)) as [e2 p2 | p2 | p2].
      * destruct G as (_ & _ & G & _). congruence.
      * destruct G as (_ & _ & ->). eexists. split; [reflexivity |].
        cbn. rewrite Hr. cbn. repeat split; auto. congruence.
      * destruct G as (G & _). congruence.
    + intros q e q'. apply Release_closed_channel.
  - destruct F as (_ & F & _). congruence.
  - destruct F as (F & _). congruence.
Qed.

(** C4 at a pool of capacity 4 just built. *)
Lemma Release_not_idempotent_witness :
  exists p1,
    Release (mkPool 4 0 0 [] [] false false 0) = Returns None p1 /\
    closed p1 = 1 /\ release p1 = true /\ lock p1 = false /\
    (forall h tr W,
        run tr (mkWorld p1 h) = Some W -> ~ In in_Release tr ->
        exists p2,
          Release (pool W) = Panics p2 /\
          closed p2 = 1 /\ release p2 = true /\
          lock (pool W) = false /\ lock p2 = true) /\
    (forall q e q', release q = true -> Release q <> Returns e q').
Proof.
  apply (Release_not_idempotent (mkPool 4 0 0 [] [] false false 0));
    reflexivity.
Defined.

(** ** Push *)

Lemma top_None (ws : list Worker) : top ws = None <-> ws = [].
Proof.
  unfold top. split; [| intros ->; reflexivity].
  intros H. apply nth_error_None in H.
  destruct ws as [| w ws]; [reflexivity | cbn in H; lia].
Qed.

Lemma top_app (ws : list Worker) (w : Worker) : top (ws ++ [w]) = Some w.
Proof.
  unfold top. rewrite length_app, Nat.add_1_r. cbn.
  rewrite nth_error_app2 by lia. now rewrite Nat.sub_diag.
Qed.

Lemma below_app (ws : list Worker) (w : Worker) : below (ws ++ [w]) = ws.
Proof.
  unfold below. rewrite length_app, Nat.add_1_r. cbn.
  rewrite firstn_app, Nat.sub_diag, firstn_all. cbn. apply app_nil_r.
Qed.

Lemma store_same {A : Type} (l : list A) (i : nat) (x y : A) :
  nth_error l i = Some y -> nth_error (store i x l) i = Some x.
Proof.
  revert i. induction l as [| a l IH]; intros [| i] H; cbn in *;
    try discriminate; auto.
Qed.

Lemma store_length {A : Type} (i : nat) (x : A) (l : list A) :
  length (store i x l) = length l.
Proof.
  revert i. induction l as [| a l IH]; intros [| i]; cbn; auto.
Qed.

Lemma fetch_returns c W : exists w W', fetch c W = Returns w W'.
Proof.
  unfold fetch. destruct (Get c (workerPool (pool W))) as [[wp |] items];
    eauto.
Qed.

Lemma fetch_closed c W w W' :
  fetch c W = Returns w W' -> closed (pool W') = closed (pool W).
Proof.
  unfold fetch. destruct (Get c (workerPool (pool W))) as [[wp |] items];
    intros H; inversion H; subst; reflexivity.
Qed.

(** Run on its own, [getWorker] returns exactly when the mutex is free and
    the idle stack is non-empty or [running < capacity]; it never panics. *)
Lemma getWorker_returns_iff c W :
  (exists w W', getWorker c W = Returns w W') <->
  lock (pool W) = false /\
  (workers (pool W) <> [] \/ running (pool W) < capacity (pool W)).
Proof.
  rewrite getWorker_cases. cbn.
  destruct (lock (pool W)).
  { split; [intros (w & W' & H); discriminate H | intros (H & _); discriminate H]. }
  destruct (top (workers (pool W))) as [w0 |] eqn:T.
  - split; [| intros _; apply fetch_returns].
    intros _. split; [reflexivity | left]. intros E.
    apply top_None in E. congruence.
  - apply top_None in T.
    destruct (Z.geb_spec (running (pool W)) (capacity (pool W))) as [G | G].
    + split.
      * intros (w & W' & H). destruct (0 <? freeSignal (pool W)); discriminate H.
      * intros (_ & [H | H]); [congruence | lia].
    + split; [| intros _; apply fetch_returns].
      intros _. split; [reflexivity | now right].
Qed.

Lemma getWorker_no_panic c W W' : getWorker c W <> Panics W'.
Proof.
  rewrite getWorker_cases. cbn.
  destruct (lock (pool W)); [discriminate |].
  destruct (top (workers (pool W))).
  - destruct (fetch_returns c (on_pool (set_workers (below (workers (pool W)))) W))
      as (w' & W1 & ->). discriminate.
  - destruct (running (pool W) >=? capacity (pool W)).
    + destruct (0 <? freeSignal (pool W)); discriminate.
    + destruct (fetch_returns c W) as (w' & W1 & ->). discriminate.
Qed.

(** C3, as the code has it.  [Push] returns the closed-pool error exactly
    when [closed] is 1 on entry, and then touches nothing.  Otherwise it
    never fails and never panics: it returns nil exactly when [getWorker]
    returns a Worker whose goroutine is ready to receive, and that Worker
    then holds the task; in every other case it blocks.  [getWorker] itself
    returns exactly when the mutex is free and the idle stack is non-empty
    or [running < capacity].  Once a call of [Release] has returned, every
    later [Push] returns the closed-pool error, whatever happened in
    between. *)
Theorem Push_spec (c : pick) (task : f) (W : World) :
  ((exists W', Push c task W = Returns (Some PoolClosedError) W')
   <-> closed (pool W) = 1) /\
  (closed (pool W) = 1 -> Push c task W = Returns (Some PoolClosedError) W) /\
  (closed (pool W) <> 1 ->
   (forall W', Push c task W <> Panics W') /\
   (forall e W', Push c task W = Returns e W' ->
      e = None /\
      exists w W1,
        getWorker c W = Returns w W1 /\
        nth_error (heap W1) w = Some wk_recv /\
        pool W' = pool W1 /\
        nth_error (heap W') w = Some (wk_exec task)) /\
   ((exists W', Push c task W = Returns None W') <->
    (exists w W1,
        getWorker c W = Returns w W1 /\
        nth_error (heap W1) w = Some wk_recv)) /\
   ((exists w W1, getWorker c W = Returns w W1) <->
    lock (pool W) = false /\
    (workers (pool W) <> [] \/ running (pool W) < capacity (pool W)))) /\
  (forall p1 tr W' c' task',
     Release (pool W) = Returns None p1 ->
     run tr (mkWorld p1 (heap W)) = Some W' ->
     Push c' task' W' = Returns (Some PoolClosedError) W').
Proof.
  assert (Hclosed : forall c0 t0 V, closed (pool V) = 1 ->
            Push c0 t0 V = Returns (Some PoolClosedError) V).
  { intros c0 t0 V E. unfold Push. rewrite E. reflexivity. }
  assert (Hopen : closed (pool W) <> 1 ->
            Push c task W =
            match getWorker c W with
            | Returns w W1 =>
                match sendTask w task W1 with
                | Some W2 => Returns None W2
                | None => Blocks W1
                end
            | Panics W1 => Panics W1
            | Blocks W1 => Blocks W1
            end).
  { intros N. unfold Push. destruct (Z.eqb_spec (closed (pool W)) 1);
      [contradiction | reflexivity]. }
  split; [| split; [| split]].
  - split; [| intros E; eexists; apply Hclosed, E].
    intros (W' & H). destruct (Z.eq_dec (closed (pool W)) 1) as [E | N]; [exact E |].
    rewrite (Hopen N) in H. destruct (getWorker c W) as [w W1 | W1 | W1];
      try discriminate H.
    destruct (sendTask w task W1); discriminate H.
  - apply Hclosed.
  - intros N. rewrite (Hopen N).
    split; [| split; [| split; [| apply getWorker_returns_iff]]].
    + intros W' H. destruct (getWorker c W) as [w W1 | W1 | W1] eqn:G;
        try discriminate H.
      * destruct (sendTask w task W1); discriminate H.
      * now apply getWorker_no_panic in G.
    + intros e W' H.
      destruct (getWorker c W) as [w W1 | W1 | W1]; try discriminate H.
      unfold sendTask in H.
      destruct (nth_error (heap W1) w) as [[| t | s] |] eqn:E;
        try discriminate H.
      inversion H; subst. split; [reflexivity |]. exists w, W1. cbn.
      repeat split; auto. eapply store_same, E.
    + split.
      * intros (W' & H).
        destruct (getWorker c W) as [w W1 | W1 | W1]; try discriminate H.
        exists w, W1. split; [reflexivity |]. unfold sendTask in H.
        destruct (nth_error (heap W1) w) as [[| t | s] |]; try discriminate H.
        reflexivity.
      * intros (w & W1 & -> & E). unfold sendTask. rewrite E. eauto.
  - intros p1 tr W' c' task' R H. apply Hclosed.
    apply run_closed in H. apply H. cbn.
    pose proof (Release_flags (pool W)) as F. rewrite R in F.
    destruct F as (_ & _ & _ & ->). reflexivity.
Qed.

(** C3 as stated fails: with capacity 1 and the only Worker busy, the pool
    is open and [Push] does not return. *)
Lemma Push_blocks :
  exists W0 W,
    fresh 1 = Some W0 /\
    do_calls [call_Push Miss (func 0)] W0 = Some W /\
    closed (pool W) = 0 /\
    forall c, Push c (func 1) W = Blocks W.
Proof.
  do 2 eexists. split; [reflexivity |]. split; [vm_compute; reflexivity |].
  split; [reflexivity |]. intros c. reflexivity.
Qed.

(** ** The idle stack and the allocation cache *)

(** With a non-empty idle stack [getWorker] pops the top and then carries on
    into [workerPool.Get]: the popped Worker is not what it returns. *)
Lemma getWorker_nonempty c W w0 :
  lock (pool W) = false -> top (workers (pool W)) = Some w0 ->
  getWorker c W =
  fetch c (on_pool (set_workers (below (workers (pool W)))) W).
Proof.
  intros L T. rewrite getWorker_cases. cbn. now rewrite L, T.
Qed.

(** With an empty idle stack a Worker is minted only below capacity. *)
Lemma getWorker_empty_checked c W w W' :
  top (workers (pool W)) = None ->
  getWorker c W = Returns w W' ->
  running (pool W) < capacity (pool W).
Proof.
  intros T. rewrite getWorker_cases. cbn. rewrite T.
  destruct (lock (pool W)); [discriminate |].
  destruct (Z.geb_spec (running (pool W)) (capacity (pool W))); [| lia].
  destruct (0 <? freeSignal (pool W)); discriminate.
Qed.

(** C1 at the failing input.  Capacity 2; two tasks are submitted, minting
    Workers 0 and 1; the task of Worker 0 returns, then the task of Worker
    1.  The idle stack is [0; 1] and both Workers sit in the allocation
    cache.  [getWorker] pops Worker 1 and returns another one: Worker 0 when
    the cache yields it, a newly minted Worker 2 when the cache yields
    nothing. *)
Example getWorker_discards_popped :
  exists W0 W,
    fresh 2 = Some W0 /\
    do_calls [call_Push Miss (func 0); call_Push Miss (func 1);
              task_returns 0%nat; task_returns 1%nat] W0 = Some W /\
    top (workers (pool W)) = Some 1%nat /\
    (exists W1, getWorker (Hit 1) W = Returns 0%nat W1 /\
                workers (pool W1) = [0%nat]) /\
    (exists W1, getWorker Miss W = Returns 2%nat W1 /\
                workers (pool W1) = [0%nat] /\
                Running (pool W1) = 3 /\ Cap (pool W1) = 2).
Proof.
  do 2 eexists. split; [reflexivity |]. split; [vm_compute; reflexivity |].
  split; [reflexivity |].
  split; eexists; (split; [vm_compute; reflexivity | repeat split]).
Qed.

(** C2 at the failing input.  Capacity 1; one task is submitted, minting
    Worker 0; its task returns; the collector empties the allocation cache.
    [running] equals [capacity], the idle stack holds Worker 0, and
    [getWorker] mints Worker 1 and starts its goroutine without comparing
    [running] with [capacity]: [running] becomes 2. *)
Example getWorker_mints_at_capacity :
  exists W0 W,
    fresh 1 = Some W0 /\
    do_calls [call_Push Miss (func 0); task_returns 0%nat; collection] W0
      = Some W /\
    Running (pool W) = 1 /\ Cap (pool W) = 1 /\
    workers (pool W) = [0%nat] /\ heap W = [wk_recv] /\
    forall c, exists W1,
      getWorker c W = Returns 1%nat W1 /\
      Running (pool W1) = 2 /\ Cap (pool W1) = 1 /\
      heap W1 = [wk_recv; wk_recv].
Proof.
  do 2 eexists. split; [reflexivity |]. split; [vm_compute; reflexivity |].
  do 4 (split; [reflexivity |]).
  intros c.
  destruct c as [| [| i]]; eexists; (split; [reflexivity | repeat split]).
Qed.

(** ** The closed flag *)

Lemma pw_step_closed v w s p :
  pw_step w s (set_closed v p) =
  option_map (fun r => (fst r, set_closed v (snd r))) (pw_step w s p).
Proof.
  destruct s; cbn; try reflexivity.
  - destruct (lock p); reflexivity.
  - destruct (freeSignal p <? MaxInt32); reflexivity.
Qed.

Lemma gw_step_closed v c s W :
  gw_step c s (on_pool (set_closed v) W) =
  option_map (fun r => (fst r, on_pool (set_closed v) (snd r)))
             (gw_step c s W).
Proof.
  destruct s; cbn; try reflexivity.
  - destruct (lock (pool W)); [reflexivity |].
    destruct (top (workers (pool W))); [reflexivity |].
    destruct (running (pool W) >=? capacity (pool W)); reflexivity.
  - destruct (0 <? freeSignal (pool W)); reflexivity.
  - destruct (lock (pool W)); [reflexivity |].
    destruct (top (workers (pool W))); reflexivity.
  - destruct (Get c (workerPool (pool W))) as [[wp |] items]; reflexivity.
Qed.

Lemma pw_run_closed v n w s p :
  pw_run n w s (set_closed v p) = map_outcome (set_closed v) (pw_run n w s p).
Proof.
  revert s p. induction n as [| n IH]; intros s p.
  - destruct s; reflexivity.
  - destruct s; try reflexivity; cbn [pw_run]; rewrite pw_step_closed;
      (destruct (pw_step w _ p) as [[s' p'] |]; [apply IH | reflexivity]).
Qed.

Lemma gw_run_closed v n c s W :
  gw_run n c s (on_pool (set_closed v) W) =
  map_outcome (on_pool (set_closed v)) (gw_run n c s W).
Proof.
  revert s W. induction n as [| n IH]; intros s W.
  - destruct s; reflexivity.
  - destruct s; try reflexivity; cbn [gw_run]; rewrite gw_step_closed;
      (destruct (gw_step c _ W) as [[s' W'] |]; [apply IH | reflexivity]).
Qed.

Lemma putWorker_returns w p :
  lock p = false -> freeSignal p < MaxInt32 ->
  putWorker w p =
  Returns tt (set_freeSignal (freeSignal p + 1)
               (set_workers (workers p ++ [w])
                  (set_workerPool (Put w (workerPool p)) p))).
Proof.
  intros L F. unfold putWorker. cbn. rewrite L. cbn.
  destruct (Z.ltb_spec (freeSignal p) MaxInt32); [reflexivity | lia].
Qed.

Lemma fetch_workers c W w W' :
  fetch c W = Returns w W' -> workers (pool W') = workers (pool W).
Proof.
  unfold fetch. destruct (Get c (workerPool (pool W))) as [[wp |] items];
    intros H; inversion H; subst; reflexivity.
Qed.

Lemma sendTask_closed v w task W :
  sendTask w task (on_pool (set_closed v) W) =
  option_map (on_pool (set_closed v)) (sendTask w task W).
Proof.
  unfold sendTask. cbn.
  destruct (nth_error (heap W) w) as [[| t | s] |]; reflexivity.
Qed.

(** C10, as the code has it.  [putWorker] and [getWorker] do not read
    [closed]: each of their steps, and each of the two calls run on its
    own, commutes with storing any value [v] in the flag.  On every pool,
    closed or open, whose mutex is free and whose signal buffer is not
    full, [putWorker] puts the Worker in the allocation cache, pushes it on
    top of the idle stack and adds one unit to [freeSignal].  On a closed
    pool with a free mutex [getWorker] still pops the idle stack when it is
    not empty (the Worker on top is removed, the ones below stay), and
    still mints a Worker when the stack is empty, [running < capacity] and
    the cache yields nothing.  [Push] fails on entry when the flag is 1,
    and otherwise does not depend on it.  [Running], [Free], [Cap],
    [ReSize] and [Release] do not read the flag either.  The one other
    reader is the loop body of [scanAndClean] (line 82): it stops the idle
    Workers exactly when the flag is 1. *)
Theorem closed_flag_only_gates_Push
        (v : Z) (c : pick) (w : Worker) (task : f) (W : World) :
  let shut := on_pool (set_closed v) in
  let p := pool W in
  (forall s, pw_step w s (set_closed v p) =
             option_map (fun r => (fst r, set_closed v (snd r)))
                        (pw_step w s p)) /\
  (forall s, gw_step c s (shut W) =
             option_map (fun r => (fst r, shut (snd r))) (gw_step c s W)) /\
  putWorker w (set_closed v p) = map_outcome (set_closed v) (putWorker w p) /\
  getWorker c (shut W) = map_outcome shut (getWorker c W) /\
  (lock p = false -> freeSignal p < MaxInt32 ->
   exists p',
     putWorker w p = Returns tt p' /\
     workerPool p' = w :: workerPool p /\
     workers p' = workers p ++ [w] /\ top (workers p') = Some w /\
     freeSignal p' = freeSignal p + 1 /\ closed p' = closed p) /\
  (forall ws w0,
     closed p = 1 -> lock p = false -> workers p = ws ++ [w0] ->
     exists w' W',
       getWorker c W = Returns w' W' /\
       workers (pool W') = ws /\ closed (pool W') = 1) /\
  (closed p = 1 -> lock p = false -> workers p = [] ->
   running p < capacity p ->
   exists W',
     getWorker Miss W = Returns (length (heap W)) W' /\
     running (pool W') = Int32.add (running p) 1 /\
     heap W' = heap W ++ [wk_recv]) /\
  Push c task (on_pool (set_closed 1) W)
    = Returns (Some PoolClosedError) (on_pool (set_closed 1) W) /\
  (v <> 1 -> closed p <> 1 ->
   Push c task (shut W) = map_outcome shut (Push c task W)) /\
  Running (set_closed v p) = Running p /\
  Free (set_closed v p) = Free p /\
  Cap (set_closed v p) = Cap p /\
  (forall size, ReSize size (set_closed v p) = set_closed v (ReSize size p)) /\
  (lock p = false -> Release (set_closed v p) = Release p) /\
  (forall s,
     Sweeper.pos s = Sweeper.at_body ->
     lock (Sweeper.shared s) = false ->
     exists s',
       Sweeper.step Sweeper.l_body s = Some s' /\
       Sweeper.stopped s' =
         if closed (Sweeper.shared s) =? 1
         then Sweeper.stopped s ++ workers (Sweeper.shared s)
         else Sweeper.stopped s).
Proof.
  cbn zeta.
  split; [intros s; apply pw_step_closed |].
  split; [intros s; apply gw_step_closed |].
  split; [apply pw_run_closed |].
  split; [apply gw_run_closed |].
  split; [| split; [| split; [| split; [| split]]]].
  - intros L F. eexists. split; [apply putWorker_returns; assumption |].
    cbn. repeat split. apply top_app.
  - intros ws w0 C L E.
    assert (T : top (workers (pool W)) = Some w0)
      by (rewrite E; apply top_app).
    rewrite (getWorker_nonempty c W L T).
    destruct (fetch_returns c
                (on_pool (set_workers (below (workers (pool W)))) W))
      as (w' & W' & F).
    exists w', W'. split; [exact F |]. split.
    + apply fetch_workers in F. rewrite F. cbn. rewrite E. apply below_app.
    + apply fetch_closed in F. rewrite F. exact C.
  - intros _ L E G. rewrite getWorker_cases. cbn. rewrite L, E. cbn.
    destruct (Z.geb_spec (running (pool W)) (capacity (pool W))); [lia |].
    eexists. split; [reflexivity | split; reflexivity].
  - reflexivity.
  - intros Nv N. unfold Push.
    change (closed (pool (on_pool (set_closed v) W))) with v.
    destruct (Z.eqb_spec v 1); [contradiction |].
    destruct (Z.eqb_spec (closed (pool W)) 1); [contradiction |].
    unfold getWorker. rewrite gw_run_closed.
    destruct (gw_run 3 c gw_Lock W) as [w1 W1 | W1 | W1];
      cbn [map_outcome]; try reflexivity.
    rewrite sendTask_closed. destruct (sendTask w1 task W1); reflexivity.
  - do 3 (split; [reflexivity |]). split; [intros size; reflexivity |].
    split.
    + intros L. unfold Release. cbn. rewrite L. reflexivity.
    + intros s P L. unfold Sweeper.step. rewrite P, L.
      destruct (closed (Sweeper.shared s) =? 1); eexists;
        (split; [reflexivity | reflexivity]).
Qed.

(** C10 on a closed pool of capacity 2 with idle stack [0; 1]: [putWorker]
    pushes Worker 2 on top, and [getWorker] removes Worker 1 and leaves
    Worker 0. *)
Lemma closed_flag_only_gates_Push_witness :
  let W := mkWorld (mkPool 2 2 2 [0%nat; 1%nat] [1%nat; 0%nat] true false 1)
                   [wk_recv; wk_recv] in
  (exists p',
     putWorker 2%nat (pool W) = Returns tt p' /\
     workers p' = [0%nat; 1%nat; 2%nat] /\ freeSignal p' = 3) /\
  (exists w' W',
     getWorker (Hit 0) W = Returns w' W' /\
     workers (pool W') = [0%nat] /\ closed (pool W') = 1).
Proof.
  intros W.
  destruct (@closed_flag_only_gates_Push 0 (Hit 0) 2%nat (func 0) W)
    as (_ & _ & _ & _ & HP & HG & _).
  split.
  - destruct HP as (p' & E & _ & Hw & _ & Hf & _);
      [reflexivity | reflexivity |].
    exists p'. split; [exact E | split; [exact Hw | exact Hf]].
  - exact (HG [0%nat] 1%nat eq_refl eq_refl eq_refl).
Defined.

(** C10 as stated fails: [Push] is not the only place the flag gates.  The
    goroutine of [scanAndClean], stopping its ticker a second late, enters
    its loop body once; with the pool closed it stops the two idle
    Workers, with the same pool open it stops none. *)
Lemma sweeper_reads_closed :
  let shut := mkPool 2 2 2 [0%nat; 1%nat] [1%nat; 0%nat] true false 1 in
  let open := mkPool 2 2 2 [0%nat; 1%nat] [1%nat; 0%nat] true false 0 in
  let tr := [Sweeper.l_elapse Sweeper.Second; Sweeper.l_tick; Sweeper.l_Stop;
             Sweeper.l_receive; Sweeper.l_body] in
  exists s0 s0' s s',
    Sweeper.scanAndClean 1 0 shut = Some s0 /\
    Sweeper.scanAndClean 1 0 open = Some s0' /\
    Sweeper.run tr s0 = Some s /\
    Sweeper.run tr s0' = Some s' /\
    Sweeper.stopped s = [0%nat; 1%nat] /\ Sweeper.stopped s' = [].
Proof.
  intros shut open tr. do 4 eexists.
  split; [reflexivity |]. split; [reflexivity |].
  split; [vm_compute; reflexivity |]. split; [vm_compute; reflexivity |].
  split; reflexivity.
Qed.

(** ** The running counter *)

Lemma wrap_add_wrap (a b : Z) :
  Int32.wrap (Int32.wrap a + b) = Int32.wrap (a + b).
Proof.
  unfold Int32.wrap. f_equal.
  replace ((a + 2147483648) mod 4294967296 - 2147483648 + b + 2147483648)
    with ((a + 2147483648) mod 4294967296 + b) by lia.
  replace (a + b + 2147483648) with ((a + 2147483648) + b) by lia.
  now rewrite Zplus_mod_idemp_l.
Qed.

Lemma pending_nonneg (ks : list client) : 0 <= pending ks.
Proof.
  induction ks as [| k ks IH]; cbn [pending]; [lia |].
  destruct k as [task s | s |]; try exact IH. destruct s; lia.
Qed.

Lemma pending_app (ks1 ks2 : list client) :
  pending (ks1 ++ ks2) = pending ks1 + pending ks2.
Proof.
  induction ks1 as [| k ks1 IH]; cbn [pending app]; [reflexivity |].
  destruct k as [task s | s |]; try exact IH. destruct s; lia.
Qed.

Lemma pending_store (ks : list client) (i : nat) (k k' : client) :
  nth_error ks i = Some k ->
  pending (store i k' ks) = pending ks - pending [k] + pending [k'].
Proof.
  revert i. induction ks as [| a ks IH]; intros [| i] H; cbn in H;
    try discriminate H.
  - inversion H; subst. change (k :: ks) with ([k] ++ ks).
    change (store 0 k' ([k] ++ ks)) with ([k'] ++ ks).
    rewrite !pending_app. lia.
  - change (store (S i) k' (a :: ks)) with ([a] ++ store i k' ks).
    change (a :: ks) with ([a] ++ ks).
    rewrite !pending_app, (IH _ H). lia.
Qed.

(** A step of a client either leaves [running] and the count of Workers
    accounted for as they are, or executes the add of line 177 for a
    Worker this very client has created. *)
Lemma client_step_counted c k W k' W' :
  client_step c k W = Some (k', W') ->
  (running (pool W') = running (pool W) /\
   Z.of_nat (length (heap W')) - pending [k']
   = Z.of_nat (length (heap W)) - pending [k]) \/
  (running (pool W') = Int32.add (running (pool W)) 1 /\
   Z.of_nat (length (heap W')) - pending [k']
   = Z.of_nat (length (heap W)) - pending [k] + 1 /\
   exists task w, k = pushing task (gw_Add w)).
Proof.
  intros H. destruct k as [task s | s |]; cbn [client_step] in H.
  - destruct s.
    + destruct (gw_step c gw_Lock W) as [[s' W1] |] eqn:E;
        inversion H; subst. left. cbn in E. break_match; cbn; auto.
    + destruct (gw_step c gw_recv W) as [[s' W1] |] eqn:E;
        inversion H; subst. left. cbn in E. break_match; cbn; auto.
    + destruct (gw_step c gw_retry W) as [[s' W1] |] eqn:E;
        inversion H; subst. left. cbn in E. break_match; cbn; auto.
    + destruct (gw_step c (gw_Get w) W) as [[s' W1] |] eqn:E;
        inversion H; subst. left. cbn in E. break_match; cbn; auto.
      split; [reflexivity |]. rewrite length_app. cbn [length]. lia.
    + destruct (gw_step c (gw_Add w) W) as [[s' W1] |] eqn:E;
        inversion H; subst. right. cbn in E. inversion E; subst. cbn.
      split; [reflexivity | split; [lia | eauto]].
    + unfold sendTask in H.
      destruct (nth_error (heap W) w) as [[| t | s] |]; inversion H; subst.
      left. cbn. rewrite store_length. auto.
  - left. destruct s; cbn in H.
    + destruct (lock (pool W)); inversion H; subst. cbn. auto.
    + inversion H; subst. cbn. auto.
    + destruct (release (pool W)); inversion H; subst; cbn; auto.
    + inversion H; subst. cbn. auto.
  - discriminate H.
Qed.

Lemma worker_step_counted l W W' :
  step l W = Some W' ->
  (exists w, l = in_task w \/ l = in_putWorker w) ->
  running (pool W') = running (pool W) /\
  length (heap W') = length (heap W).
Proof.
  intros H (w & [-> | ->]).
  - split; [exact (step_running _ _ H) |]. cbn in H. break_match. cbn.
    apply store_length.
  - split; [exact (step_running _ _ H) |]. cbn in H.
    destruct (nth_error (heap W) w) as [[| |s] |]; try discriminate H.
    destruct (pw_step w s (pool W)) as [[s' p'] |]; [| discriminate H].
    destruct s'; inversion H; subst; cbn; apply store_length.
Qed.

(** Every move of the program leaves [Running()] and the count of
    Workers accounted for as they are, or adds one to both: [running] is
    incremented only by a caller that has just created a Worker, and
    nothing decrements it. *)
Lemma sys_step_counted m S S' :
  sys_step m S = Some S' ->
  (Running (pool (world S')) = Running (pool (world S)) /\
   counted S' = counted S) \/
  (Running (pool (world S')) = Int32.add (Running (pool (world S))) 1 /\
   counted S' = counted S + 1).
Proof.
  unfold Running, counted. intros H. destruct m; cbn [sys_step] in H.
  - left. destruct (closed (pool (world S)) =? 1); inversion H; subst; cbn;
      rewrite pending_app; cbn; split; auto; lia.
  - left. inversion H; subst. cbn. rewrite pending_app. cbn. split; auto; lia.
  - left. inversion H; subst. cbn. auto.
  - destruct (nth_error (clients S) i) as [k |] eqn:N; [| discriminate H].
    destruct (client_step c k (world S)) as [[k' W'] |] eqn:E;
      [| discriminate H].
    inversion H; subst. cbn [world clients].
    rewrite (@pending_store _ _ _ k' N).
    destruct (@client_step_counted _ _ _ _ _ E) as [(R & C) | (R & C & _)];
      [left | right]; split; auto; lia.
  - destruct (step (in_task w) (world S)) as [W' |] eqn:E.
    + inversion H; subst. cbn. left.
      destruct (@worker_step_counted _ _ _ E) as (Q1 & Q2); [eauto |].
      rewrite Q1, Q2. auto.
    + destruct (step (in_putWorker w) (world S)) as [W' |] eqn:E2;
        [| discriminate H].
      inversion H; subst. cbn. left.
      destruct (@worker_step_counted _ _ _ E2) as (Q1 & Q2); [eauto |].
      rewrite Q1, Q2. auto.
  - cbn in H. inversion H; subst. cbn. left. auto.
Qed.

Lemma sys_run_counted tr S S' :
  sys_run tr S = Some S' ->
  running (pool (world S)) = Int32.wrap (counted S) ->
  running (pool (world S')) = Int32.wrap (counted S') /\
  counted S <= counted S'.
Proof.
  revert S. induction tr as [| m tr IH]; intros S H R; cbn [sys_run] in H.
  - inversion H; subst. split; [exact R | lia].
  - destruct (sys_step m S) as [S1 |] eqn:E; [| discriminate H].
    apply sys_step_counted in E. unfold Running in E.
    destruct E as [(E1 & E2) | (E1 & E2)].
    + destruct (IH _ H) as (I1 & I2); [now rewrite E1, E2 |].
      split; [exact I1 | lia].
    + destruct (IH _ H) as (I1 & I2).
      { rewrite E1, E2, R, wrap_wrap_succ. f_equal. lia. }
      split; [exact I1 | lia].
Qed.

(** C7, as the code has it.  Callers are tracked, so the add of line 177
    can only be executed by a caller that has constructed and started a
    Worker at lines 172-176.  Every move leaves [Running()] alone or adds
    one to it on 32 bits, and it adds one exactly when such a caller
    executes its add: nothing decrements the counter.  From a new pool,
    [Running()] is the number of Workers created so far, less those whose
    creator has not reached its add yet, reduced to 32 bits.  As long as no
    more than [math.MaxInt32] Workers have been created it is that number
    itself: it is not negative and it never goes down. *)
Theorem Running_counts_Workers (size : Z) (W0 : World) (S1 S2 : System)
        (tr1 tr2 : list move) :
  fresh size = Some W0 ->
  sys_run tr1 (mkSystem W0 []) = Some S1 ->
  sys_run tr2 S1 = Some S2 ->
  (forall m S S', sys_step m S = Some S' ->
     (Running (pool (world S')) = Running (pool (world S)) /\
      counted S' = counted S) \/
     (Running (pool (world S')) = Int32.add (Running (pool (world S))) 1 /\
      counted S' = counted S + 1)) /\
  Running (pool (world S1))
    = Int32.wrap (Z.of_nat (length (heap (world S1))) - pending (clients S1)) /\
  Running (pool (world S2))
    = Int32.wrap (Z.of_nat (length (heap (world S2))) - pending (clients S2)) /\
  (Z.of_nat (length (heap (world S2))) <= MaxInt32 ->
   Running (pool (world S1))
     = Z.of_nat (length (heap (world S1))) - pending (clients S1) /\
   Running (pool (world S2))
     = Z.of_nat (length (heap (world S2))) - pending (clients S2) /\
   0 <= Running (pool (world S1)) <= Running (pool (world S2))).
Proof.
  intros F H1 H2. unfold fresh, NewPool in F.
  destruct (size <=? 0); [discriminate F |]. inversion F; subst. clear F.
  apply sys_run_counted in H1; [| reflexivity].
  destruct H1 as (R1 & M1). cbn in M1.
  destruct (@sys_run_counted _ _ _ H2 R1) as (R2 & M2).
  unfold Running. fold (counted S1). fold (counted S2).
  split; [apply sys_step_counted |].
  split; [exact R1 | split; [exact R2 |]].
  intros B. pose proof (pending_nonneg (clients S2)) as P2.
  assert (C2 : counted S2 <= MaxInt32) by (unfold counted; lia).
  rewrite R1, R2.
  rewrite !wrap_id
    by (unfold Int32.in_range, MaxInt32, Int32.max, Int32.min in *; lia).
  lia.
Qed.

(** C7 on a pool of capacity 2.  A first caller enters [Push] and creates
    Worker 0: one Worker exists and [Running()] is still 0, its add is
    pending.  Then it executes the add and hands over its task, and a
    second caller does the same with Worker 1. *)
Lemma Running_counts_Workers_witness :
  let W0 := mkWorld (mkPool 2 0 0 [] [] false false 0) [] in
  let tr1 := [m_Push (func 0); m_client 0 Miss; m_client 0 Miss] in
  let tr2 := [m_client 0 Miss; m_client 0 Miss; m_Push (func 1);
              m_client 1 Miss; m_client 1 Miss; m_client 1 Miss;
              m_client 1 Miss] in
  exists S1 S2,
    fresh 2 = Some W0 /\
    sys_run tr1 (mkSystem W0 []) = Some S1 /\
    sys_run tr2 S1 = Some S2 /\
    length (heap (world S1)) = 1%nat /\ pending (clients S1) = 1 /\
    length (heap (world S2)) = 2%nat /\ pending (clients S2) = 0 /\
    Running (pool (world S1)) = 0 /\ Running (pool (world S2)) = 2 /\
    0 <= Running (pool (world S1)) <= Running (pool (world S2)).
Proof.
  intros W0 tr1 tr2.
  assert (E1 : exists S1, sys_run tr1 (mkSystem W0 []) = Some S1)
    by (eexists; vm_compute; reflexivity).
  destruct E1 as (S1 & E1).
  assert (E2 : exists S2, sys_run tr2 S1 = Some S2).
  { pose proof E1 as E. vm_compute in E. inversion E.
    eexists. vm_compute. reflexivity. }
  destruct E2 as (S2 & E2). exists S1, S2.
  split; [reflexivity | split; [exact E1 | split; [exact E2 |]]].
  destruct (@Running_counts_Workers 2 W0 S1 S2 tr1 tr2 eq_refl E1 E2)
    as (_ & _ & _ & H).
  pose proof E1 as E. vm_compute in E. inversion E. subst S1. clear E.
  pose proof E2 as E. vm_compute in E. inversion E. subst S2. clear E.
  destruct H as (H1 & H2 & H3); [vm_compute; discriminate |].
  repeat split; try reflexivity; apply H3.
Defined.

Lemma nth_error_app_last {A : Type} (l : list A) (y : A) :
  nth_error (l ++ [y]) (length l) = Some y.
Proof.
  rewrite nth_error_app2 by lia. now rewrite Nat.sub_diag.
Qed.

Lemma store_app_last {A : Type} (l : list A) (x y : A) :
  store (length l) x (l ++ [y]) = l ++ [x].
Proof.
  induction l as [| a l IH]; cbn; [reflexivity | now rewrite IH].
Qed.

Lemma do_calls_app ks1 ks2 W :
  do_calls (ks1 ++ ks2) W =
  match do_calls ks1 W with Some W1 => do_calls ks2 W1 | None => None end.
Proof.
  revert W. induction ks1 as [| k ks1 IH]; intros W; cbn [do_calls app];
    [reflexivity |].
  destruct (do_call k W); [apply IH | reflexivity].
Qed.

(** Below capacity, with an empty idle stack and a cache miss, [Push] mints
    a Worker and hands it the task. *)
Lemma Push_saturated t n :
  Z.of_nat n < MaxInt32 ->
  Push Miss t (saturated t n) = Returns None (saturated t (S n)).
Proof.
  intros B. unfold Push. rewrite getWorker_cases.
  unfold saturated at 1 2 3 4 5 6 7. cbn [pool closed lock workers top
    length pred nth_error running capacity freeSignal].
  change (0 =? 1) with false. cbn iota.
  destruct (Z.geb_spec (Z.of_nat n) MaxInt32) as [G | _]; [lia |].
  unfold fetch, saturated. cbn [pool workerPool Get heap running].
  unfold sendTask. cbn [heap pool].
  rewrite nth_error_app_last, store_app_last.
  rewrite <- repeat_cons. cbn [repeat]. do 2 f_equal.
  unfold set_running, set_workerPool.
  cbn [capacity running freeSignal workers workerPool release lock closed].
  f_equal.
  unfold Int32.add. rewrite wrap_id, Nat2Z.inj_succ; [lia |].
  unfold Int32.in_range, MaxInt32, Int32.max, Int32.min in *. lia.
Qed.

Lemma do_calls_saturate t n m :
  Z.of_nat (m + n) <= MaxInt32 ->
  do_calls (repeat (call_Push Miss t) n) (saturated t m)
  = Some (saturated t (m + n)).
Proof.
  revert m. induction n as [| n IH]; intros m B.
  - now rewrite Nat.add_0_r.
  - cbn [repeat do_calls do_call]. rewrite Push_saturated by lia.
    rewrite IH by (rewrite Nat.add_succ_l, <- Nat.add_succ_r; exact B).
    now rewrite Nat.add_succ_l, <- Nat.add_succ_r.
Qed.

(** At [running = math.MaxInt32], a Worker that puts itself back and a
    [Push] whose cache lookup misses take the counter to [math.MinInt32]. *)
Lemma overflow_step t h :
  exists W2,
    do_calls [task_returns 0%nat; call_Push Miss t]
      (mkWorld (mkPool MaxInt32 MaxInt32 0 [] [] false false 0)
               (wk_exec t :: h))
    = Some W2 /\
    Running (pool W2) = -2147483648.
Proof.
  cbn. unfold sendTask. cbn. rewrite nth_error_app_last.
  eexists. split; reflexivity.
Qed.

(** C7 as stated fails.  On a new pool of capacity [math.MaxInt32], submit
    [math.MaxInt32] tasks that do not return: each mints a Worker and
    [Running()] reaches [math.MaxInt32].  Then the task of Worker 0
    returns, and one more task is submitted whose cache lookup misses: the
    Worker is minted without a capacity check and [Running()] becomes
    [math.MinInt32]: it went down, and it is negative. *)
Lemma Running_overflows :
  exists W0 W1 W2,
    fresh MaxInt32 = Some W0 /\
    do_calls (repeat (call_Push Miss (func 0)) (Z.to_nat MaxInt32)) W0
      = Some W1 /\
    Running (pool W1) = 2147483647 /\
    do_calls [task_returns 0%nat; call_Push Miss (func 0)] W1 = Some W2 /\
    Running (pool W2) = -2147483648.
Proof.
  assert (E : Z.of_nat (Z.to_nat MaxInt32) = MaxInt32)
    by (apply Z2Nat.id; discriminate).
  remember (Z.to_nat MaxInt32) as N eqn:HN. clear HN.
  destruct N as [| m]; [discriminate E |].
  destruct (overflow_step (func 0) (repeat (wk_exec (func 0)) m))
    as (W2 & H2 & R2).
  exists (saturated (func 0) 0), (saturated (func 0) (S m)), W2.
  split; [reflexivity |].
  split; [apply (do_calls_saturate (func 0) (S m) 0);
          change (Z.of_nat (S m) <= MaxInt32); rewrite E; lia |].
  split; [unfold saturated, Running; cbn [pool running]; exact E |].
  split; [| exact R2].
  unfold saturated. rewrite E. exact H2.
Qed.

(** ** The cleanup goroutine *)

Lemma latency_nonneg (tr : list Sweeper.label) : 0 <= Sweeper.latency tr.
Proof.
  induction tr as [| l tr IH]; cbn [Sweeper.latency]; [lia |].
  destruct l; lia.
Qed.

Lemma quiet_step l tr s s' :
  Sweeper.step l s = Some s' ->
  quiet s (Sweeper.latency (l :: tr)) ->
  quiet s' (Sweeper.latency tr).
Proof.
  intros H (R & S & C & Q). pose proof (latency_nonneg tr) as L.
  unfold quiet.
  destruct l; cbn [Sweeper.latency] in Q; unfold Sweeper.step in H.
  - destruct Q as [(P & _) | (P & _)]; rewrite P in H; [| discriminate H].
    inversion H; subst. cbn. auto 6.
  - destruct Q as [(P & _) | (P & _)]; rewrite P in H; [discriminate H |].
    rewrite C in H. discriminate H.
  - destruct Q as [(P & _) | (P & _)]; rewrite P in H; discriminate H.
  - destruct Q as [(P & Q) | (P & Q)].
    + destruct (Z.leb_spec (Sweeper.due (Sweeper.ticker s)) (Sweeper.now s));
        [lia |].
      rewrite andb_false_r in H. discriminate H.
    + rewrite Q in H. discriminate H.
  - destruct (Z.leb_spec 0 d); [| discriminate H].
    inversion H; subst. cbn. repeat split; auto.
    destruct Q as [(P & Q) | (P & Q)]; [left | right]; split; auto. lia.
  - inversion H; subst. cbn. repeat split; auto.
Qed.

Lemma quiet_run tr s s' :
  Sweeper.run tr s = Some s' ->
  quiet s (Sweeper.latency tr) ->
  quiet s' 0.
Proof.
  revert s. induction tr as [| l tr IH]; intros s H Q; cbn in H.
  - inversion H; subst. exact Q.
  - destruct (Sweeper.step l s) as [s1 |] eqn:E; [| discriminate H].
    apply (IH _ H). eapply quiet_step; eassumption.
Qed.

(** C6, as the code has it.  [scanAndClean] is called at any time on any
    pool, with any value of the interval constant.  If the goroutine it
    starts executes [ticker.Stop()] before the first interval has elapsed
    since the ticker was made, then whatever happens afterwards (time
    passing, the runtime trying to deliver ticks, the other goroutines
    closing or changing the pool), the goroutine never enters the body of
    its loop and no Worker is stopped: it has either not moved yet or sits
    at the receive with the ticker stopped and the channel empty. *)
Theorem sweeper_never_fires
        (interval t : Z) (p : Pool) (s0 s : Sweeper.State)
        (tr : list Sweeper.label) :
  Sweeper.scanAndClean interval t p = Some s0 ->
  Sweeper.run tr s0 = Some s ->
  Sweeper.latency tr < interval * Sweeper.Second ->
  Sweeper.rounds s = 0%nat /\
  Sweeper.stopped s = [] /\
  Sweeper.pos s <> Sweeper.at_body /\
  Sweeper.C (Sweeper.ticker s) = false /\
  (Sweeper.pos s = Sweeper.at_Stop \/
   Sweeper.pos s = Sweeper.at_range /\
   Sweeper.ticking (Sweeper.ticker s) = false).
Proof.
  intros I H B. unfold Sweeper.scanAndClean in I.
  destruct (interval * Sweeper.Second <=? 0); [discriminate I |].
  inversion I; subst. clear I.
  apply quiet_run in H.
  - destruct H as (R & S & C & Q). repeat split; auto.
    + destruct Q as [(P & _) | (P & _)]; rewrite P; discriminate.
    + destruct Q as [(P & _) | Q]; auto.
  - unfold quiet. cbn. repeat split. left. split; [reflexivity | lia].
Qed.

(** C6 with an interval of 30 seconds: the goroutine stops the ticker one
    microsecond after its creation; the pool is closed with two idle
    Workers; a minute passes. *)
Lemma sweeper_never_fires_witness :
  let p := mkPool 2 2 0 [] [] false false 0 in
  let p' := mkPool 2 2 2 [0%nat; 1%nat] [1%nat; 0%nat] true false 1 in
  let tr := [Sweeper.l_elapse 1000; Sweeper.l_Stop; Sweeper.l_others p';
             Sweeper.l_elapse (60 * Sweeper.Second)] in
  exists s0 s,
    Sweeper.scanAndClean 30 0 p = Some s0 /\
    Sweeper.run tr s0 = Some s /\
    Sweeper.latency tr < 30 * Sweeper.Second /\
    closed (Sweeper.shared s) = 1 /\
    Sweeper.rounds s = 0%nat /\ Sweeper.stopped s = [].
Proof.
  intros p p' tr. do 2 eexists.
  split; [reflexivity |].
  split; [vm_compute; reflexivity |].
  split; [reflexivity |].
  split; [reflexivity |].
  destruct (@sweeper_never_fires 30 0 p _ _ tr eq_refl eq_refl eq_refl)
    as (R & S & _).
  split; [exact R | exact S].
Defined.

(** C6 as stated fails: [ticker.Stop()] is the first statement of the new
    goroutine, not of [scanAndClean].  If a whole interval passes before the
    goroutine stops the ticker, the tick delivered meanwhile stays in the
    channel, the loop body runs once, and on a closed pool it stops the
    idle Workers. *)
Example late_Stop_fires :
  let p := mkPool 2 2 2 [0%nat; 1%nat] [1%nat; 0%nat] true false 1 in
  let tr := [Sweeper.l_elapse Sweeper.Second; Sweeper.l_tick; Sweeper.l_Stop;
             Sweeper.l_receive; Sweeper.l_body] in
  exists s0 s,
    Sweeper.scanAndClean 1 0 p = Some s0 /\
    Sweeper.run tr s0 = Some s /\
    Sweeper.rounds s = 1%nat /\ Sweeper.stopped s = [0%nat; 1%nat].
Proof.
  intros p tr. do 2 eexists. split; [reflexivity |].
  split; [vm_compute; reflexivity |]. split; reflexivity.
Qed.

(** * Further properties of [pool.go] *)

(** ** getWorker: when it blocks, what it returns *)

Lemma getWorker_blocks_aux (c : pick) (W : World) :
  (exists W', getWorker c W = Blocks W') <->
  lock (pool W) = true \/
  (workers (pool W) = [] /\ capacity (pool W) <= running (pool W)).
Proof.
  rewrite getWorker_cases. cbn zeta.
  destruct (lock (pool W)).
  { split; [auto | eauto]. }
  destruct (top (workers (pool W))) as [w0 |] eqn:T.
  - destruct (fetch_returns c
                (on_pool (set_workers (below (workers (pool W)))) W))
      as (w & W1 & ->).
    split; [intros (W' & H); discriminate H |].
    intros [H | (H & _)]; [discriminate H |].
    rewrite H in T. discriminate T.
  - apply top_None in T.
    destruct (Z.geb_spec (running (pool W)) (capacity (pool W))) as [G | G].
    + split; [intros _; right; split; [exact T | lia] |].
      intros _. destruct (0 <? freeSignal (pool W)); eauto.
    + destruct (fetch_returns c W) as (w & W1 & ->).
      split; [intros (W' & H); discriminate H |].
      intros [H | (_ & H)]; [discriminate H | lia].
Qed.

(** Run on its own, [getWorker] blocks exactly when the mutex is held, or
    the idle stack is empty and [running >= capacity]; it never panics. *)
Theorem getWorker_blocks_iff (c : pick) (W : World) :
  ((exists W', getWorker c W = Blocks W') <->
   lock (pool W) = true \/
   (workers (pool W) = [] /\ capacity (pool W) <= running (pool W))) /\
  (forall W', getWorker c W <> Panics W').
Proof.
  split; [apply getWorker_blocks_aux | intros W'; apply getWorker_no_panic].
Qed.

Lemma getWorker_nonempty_effect (c : pick) (W : World) (w0 : Worker) :
  lock (pool W) = false ->
  top (workers (pool W)) = Some w0 ->
  exists w W',
    getWorker c W = Returns w W' /\
    workers (pool W') = below (workers (pool W)) /\
    workerPool (pool W') = snd (Get c (workerPool (pool W))) /\
    capacity (pool W') = capacity (pool W) /\
    freeSignal (pool W') = freeSignal (pool W) /\
    match fst (Get c (workerPool (pool W))) with
    | Some wp =>
        w = wp /\ running (pool W') = running (pool W) /\ heap W' = heap W
    | None =>
        w = length (heap W) /\
        running (pool W') = Int32.add (running (pool W)) 1 /\
        heap W' = heap W ++ [wk_recv]
    end.
Proof.
  intros L T. rewrite (getWorker_nonempty c W L T). unfold fetch. cbn.
  destruct (Get c (workerPool (pool W))) as [[wp |] items];
    do 2 eexists; (split; [reflexivity | cbn; repeat split]).
Qed.


(** With the mutex free and a Worker on the idle stack, [getWorker] removes
    the top of the stack and returns something else: the Worker the
    allocation cache yields, leaving [running] and the goroutines as they
    were, or, when the cache yields nothing, a Worker at a new address whose
    goroutine it starts, with [running] incremented whatever the capacity
    is. *)
Theorem getWorker_nonempty_stack (c : pick) (W : World) (w0 : Worker) :
  lock (pool W) = false ->
  top (workers (pool W)) = Some w0 ->
  exists w W',
    getWorker c W = Returns w W' /\
    workers (pool W') = below (workers (pool W)) /\
    workerPool (pool W') = snd (Get c (workerPool (pool W))) /\
    capacity (pool W') = capacity (pool W) /\
    freeSignal (pool W') = freeSignal (pool W) /\
    match fst (Get c (workerPool (pool W))) with
    | Some wp =>
        w = wp /\ running (pool W') = running (pool W) /\ heap W' = heap W
    | None =>
        w = length (heap W) /\
        running (pool W') = Int32.add (running (pool W)) 1 /\
        heap W' = heap W ++ [wk_recv]
    end.
Proof.
  apply getWorker_nonempty_effect.
Qed.

(** The same at a pool of capacity 1 with one idle Worker and an empty
    cache: the Worker returned is a new one. *)
Lemma getWorker_nonempty_stack_witness :
  exists w W',
    getWorker Miss (mkWorld (mkPool 1 1 1 [0%nat] [] false false 0) [wk_recv])
      = Returns w W' /\
    workers (pool W') = [] /\ w = 1%nat /\ running (pool W') = 2.
Proof.
  destruct (@getWorker_nonempty_stack Miss
              (mkWorld (mkPool 1 1 1 [0%nat] [] false false 0) [wk_recv])
              0%nat eq_refl eq_refl)
    as (w & W' & E & Hw & _ & _ & _ & Hn & Hr & _).
  exists w, W'. repeat split; assumption.
Defined.

(** ** getWorker: the waiting path *)

(** A caller woken by a signal while the idle stack is not empty takes the
    Worker on top of it, the one freed last: the signal is consumed, and
    the cache, [running] and the Worker goroutines are left alone. *)
Theorem waiting_path_pops_top (c : pick) (W : World) (w : Worker) :
  0 < freeSignal (pool W) ->
  lock (pool W) = false ->
  top (workers (pool W)) = Some w ->
  exists W',
    gw_run 2 c gw_recv W = Returns w W' /\
    workers (pool W') = below (workers (pool W)) /\
    freeSignal (pool W') = freeSignal (pool W) - 1 /\
    workerPool (pool W') = workerPool (pool W) /\
    running (pool W') = running (pool W) /\
    heap W' = heap W.
Proof.
  intros F L T. cbn [gw_run gw_step].
  destruct (Z.ltb_spec 0 (freeSignal (pool W))); [| lia].
  unfold gw_step.
  cbn [on_pool pool lock workers set_freeSignal]. rewrite L, T.
  eexists. split; [reflexivity | cbn; repeat split].
Qed.

Lemma waiting_path_pops_top_witness :
  exists W',
    gw_run 2 Miss gw_recv
      (mkWorld (mkPool 2 2 1 [0%nat; 1%nat] [1%nat; 0%nat] false false 0)
               [wk_recv; wk_recv])
      = Returns 1%nat W' /\
    workers (pool W') = [0%nat] /\ freeSignal (pool W') = 0.
Proof.
  destruct (@waiting_path_pops_top Miss
              (mkWorld (mkPool 2 2 1 [0%nat; 1%nat] [1%nat; 0%nat]
                               false false 0) [wk_recv; wk_recv])
              1%nat eq_refl eq_refl eq_refl)
    as (W' & E & Hw & Hf & _).
  exists W'. repeat split; assumption.
Defined.

Lemma retry_spins (c : pick) (W : World) (n : nat) :
  lock (pool W) = false -> workers (pool W) = [] ->
  gw_run n c gw_retry W = Blocks W.
Proof.
  intros L E. induction n as [| n IH]; [reflexivity |].
  cbn [gw_run gw_step]. rewrite L, E. exact IH.
Qed.

(** A signal left in the buffer does not mean a Worker is idle.  With an
    empty idle stack and [running >= capacity], [getWorker] takes the
    signal and then turns in its retry loop, testing the empty stack again
    and again: however many steps it is given, it does not return, and the
    signal is gone. *)
Theorem getWorker_swallows_signal (c : pick) (W : World) (n : nat) :
  lock (pool W) = false ->
  workers (pool W) = [] ->
  capacity (pool W) <= running (pool W) ->
  0 < freeSignal (pool W) ->
  gw_run (3 + n) c gw_Lock W
  = Blocks (on_pool (set_freeSignal (freeSignal (pool W) - 1)) W).
Proof.
  intros L E G F.
  assert (S1 : gw_step c gw_Lock W = Some (gw_recv, W)).
  { unfold gw_step. cbn zeta. rewrite L, E. cbn [top length pred nth_error].
    destruct (Z.geb_spec (running (pool W)) (capacity (pool W)));
      [reflexivity | lia]. }
  assert (S2 : gw_step c gw_recv W
               = Some (gw_retry,
                       on_pool (set_freeSignal (freeSignal (pool W) - 1)) W)).
  { unfold gw_step. cbn zeta.
    destruct (Z.ltb_spec 0 (freeSignal (pool W))); [reflexivity | lia]. }
  change (gw_run (3 + n) c gw_Lock W)
    with (match gw_step c gw_Lock W with
          | None => Blocks W
          | Some (s', W') => gw_run (2 + n) c s' W'
          end).
  rewrite S1.
  change (gw_run (2 + n) c gw_recv W)
    with (match gw_step c gw_recv W with
          | None => Blocks W
          | Some (s', W') => gw_run (1 + n) c s' W'
          end).
  rewrite S2. apply retry_spins; cbn; assumption.
Qed.

Lemma getWorker_swallows_signal_witness :
  gw_run (3 + 5) Miss gw_Lock
    (mkWorld (mkPool 1 1 1 [] [0%nat] false false 0) [wk_exec (func 0)])
  = Blocks (mkWorld (mkPool 1 1 0 [] [0%nat] false false 0)
                    [wk_exec (func 0)]).
Proof.
  apply (@getWorker_swallows_signal Miss
           (mkWorld (mkPool 1 1 1 [] [0%nat] false false 0)
                    [wk_exec (func 0)]) 5);
    [reflexivity | reflexivity | discriminate | reflexivity].
Defined.

(** ** putWorker *)

Lemma putWorker_cases (w : Worker) (p : Pool) :
  putWorker w p =
  let p1 := set_workerPool (Put w (workerPool p)) p in
  if lock p then Blocks p1
  else
    let p2 := set_workers (workers p ++ [w]) p1 in
    if freeSignal p <? MaxInt32
    then Returns tt (set_freeSignal (freeSignal p + 1) p2)
    else Blocks p2.
Proof.
  unfold putWorker. cbn. destruct (lock p); [reflexivity |]. cbn.
  destruct (freeSignal p <? MaxInt32); reflexivity.
Qed.

(** Run on its own, [putWorker] blocks exactly when the mutex is held or
    the buffer of [freeSignal] is full, and it never panics.  When it
    blocks on the full buffer the Worker has already been cached and
    pushed: it is on top of the idle stack although its goroutine is stuck
    in the send. *)
Theorem putWorker_blocks_iff (w : Worker) (p : Pool) :
  ((exists p', putWorker w p = Blocks p') <->
   lock p = true \/ MaxInt32 <= freeSignal p) /\
  (forall p', putWorker w p <> Panics p') /\
  (lock p = false -> MaxInt32 <= freeSignal p ->
   exists p', putWorker w p = Blocks p' /\
              top (workers p') = Some w /\
              workerPool p' = w :: workerPool p).
Proof.
  rewrite putWorker_cases. cbn zeta.
  destruct (lock p).
  { split; [split; eauto |]. split; [discriminate |]. discriminate. }
  destruct (Z.ltb_spec (freeSignal p) MaxInt32) as [F | F].
  - split; [split |]; [| | split].
    + intros (p' & H). discriminate H.
    + intros [H | H]; [discriminate H | lia].
    + discriminate.
    + intros _ H. lia.
  - split; [split; eauto |]. split; [discriminate |].
    intros _ _. eexists. split; [reflexivity |]. cbn.
    split; [apply top_app | reflexivity].
Qed.

(** [putWorker] followed by [getWorker], nothing in between: the idle
    stack is what it was before, whichever Worker comes back, and the
    signal that [putWorker] posted is still in the buffer. *)
Theorem put_then_get_restores_stack (c : pick) (w : Worker) (W : World) :
  lock (pool W) = false ->
  freeSignal (pool W) < MaxInt32 ->
  exists p1 w' W',
    putWorker w (pool W) = Returns tt p1 /\
    getWorker c (mkWorld p1 (heap W)) = Returns w' W' /\
    workers (pool W') = workers (pool W) /\
    freeSignal (pool W') = freeSignal (pool W) + 1.
Proof.
  intros L F. rewrite (putWorker_returns w (pool W) L F).
  eexists. 
  match goal with |- exists w' W', Returns tt ?q = _ /\ _ =>
    destruct (@getWorker_nonempty_effect c (mkWorld q (heap W)) w)
      as (w' & W' & E & Hw & _ & _ & Hf & _)
  end.
  - exact L.
  - cbn. apply top_app.
  - exists w', W'. split; [reflexivity |]. split; [exact E |].
    cbn in Hw, Hf. rewrite below_app in Hw. auto.
Qed.

Lemma put_then_get_restores_stack_witness :
  exists p1 w' W',
    putWorker 1%nat (mkPool 2 2 0 [0%nat] [0%nat] false false 0)
      = Returns tt p1 /\
    getWorker (Hit 1) (mkWorld p1 [wk_recv; wk_recv]) = Returns w' W' /\
    workers (pool W') = [0%nat] /\ freeSignal (pool W') = 0 + 1.
Proof.
  apply (@put_then_get_restores_stack (Hit 1) 1%nat
           (mkWorld (mkPool 2 2 0 [0%nat] [0%nat] false false 0)
                    [wk_recv; wk_recv]));
    reflexivity.
Defined.

(** ** Release, the flag and the mutex *)

Lemma step_keeps_lock l W W' :
  step l W = Some W' -> lock (pool W) = true -> lock (pool W') = true.
Proof.
  intros H L. destruct l;
    try (apply step_flags in H; destruct H as (_ & _ & H);
         destruct H as (_ & _ & ->); [discriminate | exact L]).
  cbn in H. pose proof (Release_flags (pool W)) as R.
  destruct (Release (pool W)).
  - destruct R as (_ & R & _). congruence.
  - destruct R as (R & _). congruence.
  - discriminate H.
Qed.

Lemma run_keeps_lock tr W W' :
  run tr W = Some W' -> lock (pool W) = true -> lock (pool W') = true.
Proof.
  revert W. induction tr as [| l tr IH]; intros W H L; cbn in H.
  - now inversion H; subst.
  - destruct (step l W) as [W1 |] eqn:E; [| discriminate H].
    apply (IH _ H). eapply step_keeps_lock; eassumption.
Qed.

(** A second [Release] leaves the pool wedged.  It panics between
    [Lock] and [Unlock], and nothing releases the mutex afterwards: from
    then on, whatever moves the goroutines still can make, the mutex is
    held, and [Release], [getWorker] and [putWorker] all block. *)
Theorem Release_panic_wedges (p : Pool) (h : list wk) :
  lock p = false -> release p = true ->
  exists p2,
    Release p = Panics p2 /\ lock p2 = true /\
    forall tr W,
      run tr (mkWorld p2 h) = Some W ->
      lock (pool W) = true /\
      Release (pool W) = Blocks (pool W) /\
      (forall c, getWorker c W = Blocks W) /\
      (forall w, exists p', putWorker w (pool W) = Blocks p').
Proof.
  intros L R. pose proof (Release_flags p) as F.
  destruct (Release p) as [e p2 | p2 | p2].
  - destruct F as (_ & _ & F & _). congruence.
  - destruct F as (_ & _ & ->). eexists. split; [reflexivity |].
    split; [reflexivity |].
    intros tr W H. apply run_keeps_lock in H; [| reflexivity].
    split; [exact H |]. split; [| split].
    + unfold Release. now rewrite H.
    + intros c. rewrite getWorker_cases. cbn zeta. now rewrite H.
    + intros w. rewrite putWorker_cases. cbn zeta. rewrite H. eauto.
  - destruct F as (F & _). congruence.
Qed.

Lemma Release_panic_wedges_witness :
  exists p2,
    Release (mkPool 1 0 0 [] [] true false 1) = Panics p2 /\
    lock p2 = true /\
    forall tr W,
      run tr (mkWorld p2 []) = Some W ->
      lock (pool W) = true /\
      Release (pool W) = Blocks (pool W) /\
      (forall c, getWorker c W = Blocks W) /\
      (forall w, exists p', putWorker w (pool W) = Blocks p').
Proof.
  apply (@Release_panic_wedges (mkPool 1 0 0 [] [] true false 1) []);
    reflexivity.
Defined.

(** ** The signal buffer and the capacity along interleavings *)

Lemma gw_step_freeSignal c s W s' W' :
  gw_step c s W = Some (s', W') ->
  0 <= freeSignal (pool W) <= MaxInt32 ->
  0 <= freeSignal (pool W') <= MaxInt32.
Proof.
  intros H B. destruct s; cbn in H; break_match; cbn; auto.
  apply Z.ltb_lt in E. lia.
Qed.

Lemma pw_step_freeSignal w s p s' p' :
  pw_step w s p = Some (s', p') ->
  0 <= freeSignal p <= MaxInt32 -> 0 <= freeSignal p' <= MaxInt32.
Proof.
  intros H B. destruct s; cbn in H; break_match; cbn; auto.
  apply Z.ltb_lt in E. lia.
Qed.

Lemma step_freeSignal l W W' :
  step l W = Some W' ->
  0 <= freeSignal (pool W) <= MaxInt32 ->
  0 <= freeSignal (pool W') <= MaxInt32.
Proof.
  intros H B. destruct l; cbn in H.
  - destruct (gw_step c s W) as [[s' W1] |] eqn:E; [| discriminate H].
    cbn in H. inversion H; subst. eapply gw_step_freeSignal; eassumption.
  - unfold sendTask in H. break_match. exact B.
  - break_match. exact B.
  - destruct (nth_error (heap W) w) as [[| |s] |]; try discriminate H.
    destruct (pw_step w s (pool W)) as [[s' p'] |] eqn:E; [| discriminate H].
    apply pw_step_freeSignal in E; [| exact B].
    destruct s'; inversion H; subst; exact E.
  - inversion H; subst. exact B.
  - pose proof (Release_flags (pool W)) as R.
    destruct (Release (pool W)); inversion H; subst; cbn.
    + destruct R as (_ & _ & _ & ->). exact B.
    + destruct R as (_ & _ & ->). exact B.
  - inversion H; subst. exact B.
Qed.

(** From a new pool and along every interleaving, the number of units
    buffered in [freeSignal] stays between 0 and [math.MaxInt32]: a receive
    waits for a unit, a send waits for room. *)
Theorem freeSignal_bounded (size : Z) (W0 W : World) (tr : list label) :
  fresh size = Some W0 ->
  run tr W0 = Some W ->
  0 <= freeSignal (pool W) <= MaxInt32.
Proof.
  intros F H.
  assert (B : 0 <= freeSignal (pool W0) <= MaxInt32).
  { unfold fresh, NewPool in F. destruct (size <=? 0); [discriminate F |].
    inversion F; subst. cbn. unfold MaxInt32, Int32.max. lia. }
  clear F. revert W0 H B.
  induction tr as [| l tr IH]; intros W0 H B; cbn in H.
  - now inversion H; subst.
  - destruct (step l W0) as [W1 |] eqn:E; [| discriminate H].
    apply (IH _ H). eapply step_freeSignal; eassumption.
Qed.

Lemma freeSignal_bounded_witness :
  let tr := [in_getWorker Miss gw_Lock; in_getWorker Miss (gw_Get None);
             in_getWorker Miss (gw_Add 0%nat); in_sendTask 0%nat (func 0);
             in_task 0%nat; in_putWorker 0%nat; in_putWorker 0%nat;
             in_putWorker 0%nat] in
  exists W0 W,
    fresh 1 = Some W0 /\ run tr W0 = Some W /\
    freeSignal (pool W) = 1 /\ 0 <= freeSignal (pool W) <= MaxInt32.
Proof.
  intros tr. do 2 eexists. split; [reflexivity |].
  split; [vm_compute; reflexivity |]. split; [reflexivity |].
  exact (@freeSignal_bounded 1 _ _ tr eq_refl eq_refl).
Defined.

Lemma step_capacity l W W' :
  step l W = Some W' ->
  capacity (pool W') =
    match l with
    | in_ReSize size => Int32.wrap size
    | _ => capacity (pool W)
    end.
Proof.
  intros H. destruct l; cbn in H.
  - destruct (gw_step c s W) as [[s' W1] |] eqn:E; [| discriminate H].
    cbn in H. inversion H; subst. now apply gw_step_flags in E.
  - unfold sendTask in H. break_match. reflexivity.
  - break_match. reflexivity.
  - destruct (nth_error (heap W) w) as [[| |s] |]; try discriminate H.
    destruct (pw_step w s (pool W)) as [[s' p'] |] eqn:E; [| discriminate H].
    apply pw_step_flags in E. destruct s'; inversion H; subst; cbn; tauto.
  - inversion H; subst. reflexivity.
  - pose proof (Release_flags (pool W)) as R.
    destruct (Release (pool W)); inversion H; subst; cbn.
    + destruct R as (_ & _ & _ & ->). reflexivity.
    + destruct R as (_ & _ & ->). reflexivity.
  - inversion H; subst. reflexivity.
Qed.

(** Nothing but [ReSize] writes the capacity.  Along every interleaving,
    [Cap()] is what the last [ReSize] stored (its argument narrowed to 32
    bits), or the initial capacity when [ReSize] has not been called; it
    always fits in an [int32] once it does. *)
Theorem Cap_is_last_ReSize (tr : list label) (W W' : World) :
  run tr W = Some W' ->
  Cap (pool W') = capacity_after tr (Cap (pool W)) /\
  (Int32.in_range (Cap (pool W)) -> Int32.in_range (Cap (pool W'))).
Proof.
  unfold Cap. revert W. induction tr as [| l tr IH]; intros W H; cbn in H.
  - inversion H; subst. auto.
  - destruct (step l W) as [W1 |] eqn:E; [| discriminate H].
    apply step_capacity in E. destruct (IH _ H) as (IH1 & IH2). split.
    + rewrite IH1, E. destruct l; reflexivity.
    + intros R. apply IH2. rewrite E. destruct l; auto using wrap_range.
Qed.

Lemma Cap_is_last_ReSize_witness :
  let tr := [in_ReSize 5; in_getWorker Miss gw_Lock; in_ReSize (-3);
             in_Release] in
  exists W',
    run tr (mkWorld (mkPool 2 0 0 [] [] false false 0) []) = Some W' /\
    Cap (pool W') = -3.
Proof.
  intros tr. eexists. split; [vm_compute; reflexivity |].
  exact (proj1 (@Cap_is_last_ReSize tr
                  (mkWorld (mkPool 2 0 0 [] [] false false 0) []) _
                  eq_refl)).
Defined.

(** ** ReSize and getWorker *)

(** With the mutex free and an empty idle stack, a caller that would wait
    gets a Worker once the capacity has been raised above [running], and a
    caller that would get one waits once the capacity has been lowered to
    [running] or below. *)
Theorem ReSize_moves_the_gate (c : pick) (size : Z) (W : World) :
  lock (pool W) = false ->
  workers (pool W) = [] ->
  Int32.in_range size ->
  (running (pool W) < size ->
   exists w W', getWorker c (on_pool (ReSize size) W) = Returns w W') /\
  (size <= running (pool W) ->
   exists W', getWorker c (on_pool (ReSize size) W) = Blocks W').
Proof.
  intros L E R. split; intros G.
  - apply getWorker_returns_iff. cbn. rewrite (wrap_id R). auto.
  - apply getWorker_blocks_aux. cbn. rewrite (wrap_id R). auto.
Qed.

Lemma ReSize_moves_the_gate_witness :
  (exists w W',
     getWorker Miss
       (on_pool (ReSize 2)
          (mkWorld (mkPool 1 1 0 [] [] false false 0) [wk_exec (func 0)]))
     = Returns w W') /\
  (exists W',
     getWorker Miss
       (on_pool (ReSize 1)
          (mkWorld (mkPool 4 1 0 [] [] false false 0) [wk_exec (func 0)]))
     = Blocks W').
Proof.
  split.
  - apply (@ReSize_moves_the_gate Miss 2
             (mkWorld (mkPool 1 1 0 [] [] false false 0) [wk_exec (func 0)]));
      [reflexivity | reflexivity | split; discriminate | reflexivity].
  - apply (@ReSize_moves_the_gate Miss 1
             (mkWorld (mkPool 4 1 0 [] [] false false 0) [wk_exec (func 0)]));
      [reflexivity | reflexivity | split; discriminate | discriminate].
Defined.

(** ** The cleanup goroutine, without a bound on its delay *)

Lemma once_step l s s' :
  Sweeper.step l s = Some s' -> once s -> once s'.
Proof.
  intros H (R1 & R0 & O). unfold once. unfold Sweeper.step in H.
  destruct l.
  - destruct (Sweeper.pos s); try discriminate H.
    inversion H; subst. cbn. auto.
  - destruct (Sweeper.pos s); try discriminate H.
    destruct O as (K & C).
    destruct (Sweeper.C (Sweeper.ticker s)); [| discriminate H].
    inversion H; subst. cbn. rewrite (C eq_refl) in *.
    repeat split; auto; try discriminate.
  - destruct (Sweeper.pos s); try discriminate H.
    destruct O as (K & C & R & S).
    destruct (closed (Sweeper.shared s) =? 1).
    + destruct (lock (Sweeper.shared s)); [discriminate H |].
      inversion H; subst. cbn. rewrite R, C.
      repeat split; auto; try discriminate.
    + inversion H; subst. cbn. rewrite R, C.
      repeat split; auto; try discriminate.
  - destruct (Sweeper.ticking (Sweeper.ticker s)) eqn:K; [| discriminate H].
    destruct (Sweeper.due (Sweeper.ticker s) <=? Sweeper.now s);
      [| discriminate H].
    inversion H; subst. cbn.
    destruct (Sweeper.pos s); [auto | | ]; destruct O as (O & _);
      discriminate O.
  - destruct (0 <=? d); [| discriminate H]. inversion H; subst. cbn. auto.
  - inversion H; subst. cbn. auto.
Qed.

Lemma once_run tr s s' :
  Sweeper.run tr s = Some s' -> once s -> once s'.
Proof.
  revert s. induction tr as [| l tr IH]; intros s H O; cbn in H.
  - now inversion H; subst.
  - destruct (Sweeper.step l s) as [s1 |] eqn:E; [| discriminate H].
    apply (IH _ H). eapply once_step; eassumption.
Qed.

(** However late the goroutine of [scanAndClean] is scheduled, and
    whatever the other goroutines and the clock do, its loop body runs at
    most once: the only tick it can ever receive is one delivered before
    [ticker.Stop()].  No Worker is stopped before that round, and once the
    goroutine has moved the ticker is stopped for good. *)
Theorem sweeper_at_most_once
        (interval t : Z) (p : Pool) (s0 s : Sweeper.State)
        (tr : list Sweeper.label) :
  Sweeper.scanAndClean interval t p = Some s0 ->
  Sweeper.run tr s0 = Some s ->
  (Sweeper.rounds s <= 1)%nat /\
  (Sweeper.rounds s = 0%nat -> Sweeper.stopped s = []) /\
  (Sweeper.pos s = Sweeper.at_body -> Sweeper.stopped s = []) /\
  (Sweeper.pos s <> Sweeper.at_Stop ->
   Sweeper.ticking (Sweeper.ticker s) = false).
Proof.
  intros I H. unfold Sweeper.scanAndClean in I.
  destruct (interval * Sweeper.Second <=? 0); [discriminate I |].
  inversion I; subst. clear I.
  apply once_run in H; [| unfold once; cbn; auto].
  destruct H as (R1 & R0 & O).
  split; [exact R1 | split; [exact R0 |]].
  destruct (Sweeper.pos s).
  - split; [discriminate | intros N; now contradiction N].
  - split; [discriminate | intros _; apply O].
  - split; [intros _; apply O | intros _; apply O].
Qed.

Lemma sweeper_at_most_once_witness :
  let p := mkPool 2 2 2 [0%nat; 1%nat] [1%nat; 0%nat] true false 1 in
  let tr := [Sweeper.l_elapse (3 * Sweeper.Second); Sweeper.l_tick;
             Sweeper.l_tick; Sweeper.l_Stop; Sweeper.l_receive;
             Sweeper.l_body; Sweeper.l_elapse (9 * Sweeper.Second)] in
  exists s0 s,
    Sweeper.scanAndClean 1 0 p = Some s0 /\
    Sweeper.run tr s0 = Some s /\
    Sweeper.rounds s = 1%nat /\ (Sweeper.rounds s <= 1)%nat.
Proof.
  intros p tr. do 2 eexists. split; [reflexivity |].
  split; [vm_compute; reflexivity |]. split; [reflexivity |].
  refine (proj1 (@sweeper_at_most_once 1 0 p _ _ tr _ _));
    vm_compute; reflexivity.
Defined.

(** ** The idle stack is a stack *)

Lemma waiting_pop (c : pick) (W : World) (w : Worker) :
  0 < freeSignal (pool W) ->
  lock (pool W) = false ->
  top (workers (pool W)) = Some w ->
  gw_run 2 c gw_recv W
  = Returns w (on_pool (set_workers (below (workers (pool W))))
                 (on_pool (set_freeSignal (freeSignal (pool W) - 1)) W)).
Proof.
  intros F L T. cbn [gw_run gw_step].
  destruct (Z.ltb_spec 0 (freeSignal (pool W))); [| lia].
  unfold gw_step.
  cbn [on_pool pool lock workers set_freeSignal]. rewrite L, T.
  reflexivity.
Qed.

(** Two Workers put themselves back, first [w1], then [w2]; then two
    callers that were waiting are served.  The first gets [w2], the second
    gets [w1], and the idle stack and the signal buffer are back to what
    they were. *)
Theorem idle_stack_is_LIFO (c : pick) (w1 w2 : Worker) (W : World) :
  lock (pool W) = false ->
  0 <= freeSignal (pool W) ->
  freeSignal (pool W) + 2 <= MaxInt32 ->
  exists p1 p2 W3 W4,
    putWorker w1 (pool W) = Returns tt p1 /\
    putWorker w2 p1 = Returns tt p2 /\
    gw_run 2 c gw_recv (mkWorld p2 (heap W)) = Returns w2 W3 /\
    gw_run 2 c gw_recv W3 = Returns w1 W4 /\
    workers (pool W4) = workers (pool W) /\
    freeSignal (pool W4) = freeSignal (pool W) /\
    running (pool W4) = running (pool W) /\
    heap W4 = heap W.
Proof.
  intros L F0 F.
  rewrite (putWorker_returns w1 (pool W) L) by lia.
  eexists. eexists. eexists. eexists.
  split; [reflexivity |].
  split; [apply putWorker_returns; cbn; [exact L | lia] |].
  split.
  { apply waiting_pop; cbn; [lia | exact L | apply top_app]. }
  cbn [on_pool pool workers freeSignal set_workers set_freeSignal heap].
  rewrite below_app.
  split.
  { apply waiting_pop; cbn; [lia | exact L | apply top_app]. }
  cbn. rewrite below_app. repeat split. lia.
Qed.

Lemma idle_stack_is_LIFO_witness :
  exists p1 p2 W3 W4,
    putWorker 0%nat (mkPool 2 2 0 [] [] false false 0) = Returns tt p1 /\
    putWorker 1%nat p1 = Returns tt p2 /\
    gw_run 2 Miss gw_recv (mkWorld p2 [wk_recv; wk_recv]) = Returns 1%nat W3 /\
    gw_run 2 Miss gw_recv W3 = Returns 0%nat W4 /\
    workers (pool W4) = [] /\ freeSignal (pool W4) = 0 /\
    running (pool W4) = 2 /\ heap W4 = [wk_recv; wk_recv].
Proof.
  apply (@idle_stack_is_LIFO Miss 0%nat 1%nat
           (mkWorld (mkPool 2 2 0 [] [] false false 0) [wk_recv; wk_recv]));
    [reflexivity | discriminate | discriminate].
Defined.

(** ** The closed flag and the release channel, statement by statement *)

Lemma Forall_store {A : Type} (P : A -> Prop) (i : nat) (x : A) (l : list A) :
  Forall P l -> P x -> Forall P (store i x l).
Proof.
  intros H Hx. revert i. induction H as [| a l Ha Hl IH]; intros [| i]; cbn;
    auto.
Qed.

Lemma Forall_nth_error {A : Type} (P : A -> Prop) (l : list A) (i : nat)
  (x : A) :
  Forall P l -> nth_error l i = Some x -> P x.
Proof.
  intros H. revert i. induction H as [| a l Ha Hl IH]; intros [| i] E;
    cbn in E; try discriminate E; eauto. inversion E; subst; assumption.
Qed.

Lemma client_step_flags c k W k' W' :
  client_step c k W = Some (k', W') ->
  match k with
  | releasing rl_store =>
      closed (pool W') = 1 /\ release (pool W') = release (pool W)
  | releasing rl_close =>
      closed (pool W') = closed (pool W) /\ release (pool W') = true
  | _ =>
      closed (pool W') = closed (pool W) /\
      release (pool W') = release (pool W)
  end /\
  match k' with
  | releasing rl_close => k = releasing rl_store
  | releasing rl_Unlock => k = releasing rl_close
  | _ => True
  end.
Proof.
  intros H. destruct k as [task s | s |]; cbn [client_step] in H.
  - assert (G : closed (pool W') = closed (pool W) /\
                release (pool W') = release (pool W) /\
                (k' = gone \/ exists s', k' = pushing task s')).
    { destruct s.
      1-5: match type of H with
           | match ?g with _ => _ end = _ =>
               destruct g as [[s' W1] |] eqn:E; inversion H; subst;
               apply gw_step_flags in E; destruct E as (-> & -> & _);
               repeat split; right; exists s'; reflexivity
           end.
      unfold sendTask in H.
      destruct (nth_error (heap W) w) as [[| t | s] |]; inversion H; subst.
      cbn. auto. }
    destruct G as (-> & -> & [-> | (s' & ->)]); auto.
  - destruct s; cbn in H.
    + destruct (lock (pool W)); inversion H; subst. cbn. auto.
    + inversion H; subst. cbn. auto.
    + destruct (release (pool W)) eqn:R; inversion H; subst; cbn; auto.
    + inversion H; subst. cbn. auto.
  - discriminate H.
Qed.

Lemma sys_step_store_first m S S' :
  sys_step m S = Some S' -> store_first S -> store_first S'.
Proof.
  unfold store_first. intros H (B & I). destruct m; cbn [sys_step] in H.
  - destruct (closed (pool (world S)) =? 1); inversion H; subst; cbn;
      (split; [exact B |]); intros Z0; destruct (I Z0) as (R & F);
      (split; [exact R |]); apply Forall_app; split; auto;
      repeat constructor; discriminate.
  - inversion H; subst; cbn. split; [exact B |]. intros Z0.
    destruct (I Z0) as (R & F). split; [exact R |]. apply Forall_app.
    split; auto. repeat constructor; discriminate.
  - inversion H; subst; cbn. auto.
  - destruct (nth_error (clients S) i) as [k |] eqn:N; [| discriminate H].
    destruct (client_step c k (world S)) as [[k' W'] |] eqn:E;
      [| discriminate H].
    inversion H; subst; clear H. cbn [world clients].
    destruct (client_step_flags _ _ _ E) as (Fl & Nx).
    assert (P0 : closed (pool (world S)) = 0 ->
                 k <> releasing rl_close /\ k <> releasing rl_Unlock).
    { intros Z0. destruct (I Z0) as (_ & F).
      exact (Forall_nth_error _ F N). }
    assert (C : (closed (pool W') = closed (pool (world S)) /\
                 release (pool W') = release (pool (world S)) /\
                 k' <> releasing rl_close /\ k' <> releasing rl_Unlock) \/
                closed (pool W') = 1).
    { destruct k as [task s | [| | |] |].
      - left. destruct Fl as (-> & ->).
        repeat split; auto; intros ->; discriminate Nx.
      - left. destruct Fl as (-> & ->).
        repeat split; auto; intros ->; discriminate Nx.
      - right. exact (proj1 Fl).
      - destruct B as [Z0 | O1].
        + exfalso. exact (proj1 (P0 Z0) eq_refl).
        + right. destruct Fl as (-> & _). exact O1.
      - destruct B as [Z0 | O1].
        + exfalso. exact (proj2 (P0 Z0) eq_refl).
        + right. destruct Fl as (-> & _). exact O1.
      - left. destruct Fl as (-> & ->).
        repeat split; auto; intros ->; discriminate Nx. }
    destruct C as [(Ec & Er & N1 & N2) | O1].
    + rewrite Ec, Er. split; [exact B |]. intros Z0.
      destruct (I Z0) as (R & F). split; [exact R |].
      apply Forall_store; auto.
    + split; [right; exact O1 |]. intros Z0. rewrite O1 in Z0.
      discriminate Z0.
  - assert (G : closed (pool (world S')) = closed (pool (world S)) /\
                release (pool (world S')) = release (pool (world S)) /\
                clients S' = clients S).
    { destruct (step (in_task w) (world S)) as [W1 |] eqn:E1.
      - inversion H; subst; cbn. apply step_flags in E1.
        destruct E1 as (_ & _ & K). destruct K as (-> & -> & _);
          [discriminate | auto].
      - destruct (step (in_putWorker w) (world S)) as [W1 |] eqn:E2;
          inversion H; subst; cbn. apply step_flags in E2.
        destruct E2 as (_ & _ & K). destruct K as (-> & -> & _);
          [discriminate | auto]. }
    destruct G as (-> & -> & ->). auto.
  - destruct (step (in_collector i) (world S)) as [W1 |] eqn:E1;
      inversion H; subst; cbn. apply step_flags in E1.
    destruct E1 as (_ & _ & K). destruct K as (-> & -> & _);
      [discriminate | auto].
Qed.

Lemma sys_run_store_first tr S S' :
  sys_run tr S = Some S' -> store_first S -> store_first S'.
Proof.
  revert S. induction tr as [| m tr IH]; intros S H I; cbn in H.
  - inversion H; subst; exact I.
  - destruct (sys_step m S) as [S1 |] eqn:E; [| discriminate H].
    exact (IH _ H (@sys_step_store_first _ _ _ E I)).
Qed.

Lemma sys_step_one_way m S S' :
  sys_step m S = Some S' ->
  (closed (pool (world S)) = 1 -> closed (pool (world S')) = 1) /\
  (release (pool (world S)) = true -> release (pool (world S')) = true).
Proof.
  intros H. destruct m; cbn [sys_step] in H.
  - destruct (closed (pool (world S)) =? 1); inversion H; subst; cbn; auto.
  - inversion H; subst; cbn; auto.
  - inversion H; subst; cbn; auto.
  - destruct (nth_error (clients S) i) as [k |] eqn:N; [| discriminate H].
    destruct (client_step c k (world S)) as [[k' W'] |] eqn:E;
      [| discriminate H].
    inversion H; subst; clear H. cbn [world clients].
    destruct (client_step_flags _ _ _ E) as (Fl & _).
    destruct k as [task s | [| | |] |]; destruct Fl as (Ec & Er);
      rewrite ?Ec, ?Er; auto.
  - destruct (step (in_task w) (world S)) as [W1 |] eqn:E1.
    + inversion H; subst; cbn. apply step_flags in E1. tauto.
    + destruct (step (in_putWorker w) (world S)) as [W1 |] eqn:E2;
        inversion H; subst; cbn. apply step_flags in E2. tauto.
  - destruct (step (in_collector i) (world S)) as [W1 |] eqn:E1;
      inversion H; subst; cbn. apply step_flags in E1. tauto.
Qed.

Lemma sys_run_one_way tr S S' :
  sys_run tr S = Some S' ->
  (closed (pool (world S)) = 1 -> closed (pool (world S')) = 1) /\
  (release (pool (world S)) = true -> release (pool (world S')) = true).
Proof.
  revert S. induction tr as [| m tr IH]; intros S H; cbn in H.
  - inversion H; subst; auto.
  - destruct (sys_step m S) as [S1 |] eqn:E; [| discriminate H].
    destruct (@sys_step_one_way _ _ _ E), (IH _ H). auto.
Qed.

(** From a new pool and along every interleaving in which [Release] is cut
    at its statements: [closed] is 0 or 1; the [release] channel is closed
    only when [closed] is 1, because the store of line 121 comes before the
    close of line 122; neither ever goes back.  The converse fails between
    the two statements: a state with [closed] set and the channel still
    open is reached after three moves. *)
Theorem closed_stored_before_close (size : Z) (W0 : World) (S S' : System)
  (tr tr' : list move) :
  fresh size = Some W0 ->
  sys_run tr (mkSystem W0 []) = Some S ->
  sys_run tr' S = Some S' ->
  (closed (pool (world S)) = 0 \/ closed (pool (world S)) = 1) /\
  (release (pool (world S)) = true -> closed (pool (world S)) = 1) /\
  (closed (pool (world S)) = 1 -> closed (pool (world S')) = 1) /\
  (release (pool (world S)) = true -> release (pool (world S')) = true) /\
  exists S1,
    sys_run [m_Release; m_client 0 Miss; m_client 0 Miss] (mkSystem W0 [])
      = Some S1 /\
    closed (pool (world S1)) = 1 /\ release (pool (world S1)) = false.
Proof.
  intros F R R'.
  assert (I0 : store_first (mkSystem W0 []) /\ lock (pool W0) = false).
  { unfold fresh, NewPool in F.
    destruct (size <=? 0); [discriminate F | inversion F; subst].
    unfold store_first. cbn. auto. }
  destruct I0 as (I0 & L0).
  destruct (@sys_run_store_first _ _ _ R I0) as (B & I).
  destruct (@sys_run_one_way _ _ _ R') as (O1 & O2).
  split; [exact B |]. split.
  { intros T. destruct B as [Z0 | O]; [| exact O].
    destruct (I Z0) as (Rf & _). congruence. }
  split; [exact O1 |]. split; [exact O2 |].
  unfold fresh, NewPool in F.
  destruct (size <=? 0); [discriminate F | inversion F; subst].
  eexists. split; [reflexivity |]. cbn. auto.
Qed.

Lemma closed_stored_before_close_witness :
  exists W0 S,
    fresh 2 = Some W0 /\
    sys_run [m_Release; m_client 0 Miss; m_client 0 Miss; m_client 0 Miss]
            (mkSystem W0 []) = Some S /\
    release (pool (world S)) = true /\ closed (pool (world S)) = 1.
Proof.
  assert (E : exists S,
             sys_run [m_Release; m_client 0 Miss; m_client 0 Miss;
                      m_client 0 Miss]
                     (mkSystem (mkWorld (mkPool 2 0 0 [] [] false false 0) [])
                               []) = Some S /\
             release (pool (world S)) = true)
    by (eexists; split; vm_compute; reflexivity).
  destruct E as (S & R & T).
  exists (mkWorld (mkPool 2 0 0 [] [] false false 0) []), S.
  split; [reflexivity |]. split; [exact R |]. split; [exact T |].
  refine (proj1 (proj2 (@closed_stored_before_close 2 _ S S _ [] _ R _)) T);
    reflexivity.
Defined.
